(** * Calendar Bulk Event Manager: the bulk deletion engine and the event filter

    A shallow embedding of the background service worker
    ([MessageRouter.performBulkDeletion], [MessageRouter.deleteEvent],
    [MessageRouter.isRetryableError], [RateLimiter.acquire]) and of the
    dialog filter of the content script
    ([CustomDialogManager.attachBulkDeleteEvents], closure
    [updateFilteredEvents]).

    Conventions of the embedding.
    - JavaScript strings are [string]s of ASCII code units; the case mapping
      and the white space of [toLowerCase] and [trim] are the ASCII ones.
    - [Date.now()] and the time value of a [Date] are integers ([Z],
      milliseconds); an invalid [Date] (time value NaN) is [None].
    - A promise that has settled is a [SettledResult]; what the network, the
      identity service and the clock answer is an explicit argument of the
      function that awaits it. *)

From Stdlib Require Import ZArith List String Ascii Bool Arith Lia.
From Stdlib Require Import Numbers.DecimalString.
From Stdlib Require Import Sorting.Sorted.
Import ListNotations.

Open Scope string_scope.
Open Scope list_scope.

(** ** JavaScript strings *)

Module Js.

(** [String.prototype.includes]: [needle] occurs in [hay] as a contiguous run
    of code units (case-sensitive; the empty needle occurs everywhere). *)
Fixpoint includes (needle hay : string) : bool :=
  String.prefix needle hay ||
  match hay with
  | EmptyString => false
  | String _ rest => includes needle rest
  end.

Definition isUpper (c : ascii) : bool :=
  let n := nat_of_ascii c in (65 <=? n)%nat && (n <=? 90)%nat.

Definition lowerChar (c : ascii) : ascii :=
  if isUpper c then ascii_of_nat (nat_of_ascii c + 32) else c.

(** [String.prototype.toLowerCase]. *)
Fixpoint toLowerCase (s : string) : string :=
  match s with
  | EmptyString => EmptyString
  | String c rest => String (lowerChar c) (toLowerCase rest)
  end.

(** White space of [String.prototype.trim]: TAB, LF, VT, FF, CR and SPACE. *)
Definition isWhiteSpace (c : ascii) : bool :=
  let n := nat_of_ascii c in ((9 <=? n)%nat && (n <=? 13)%nat) || (n =? 32)%nat.

Fixpoint trimStart (s : string) : string :=
  match s with
  | EmptyString => EmptyString
  | String c rest => if isWhiteSpace c then trimStart rest else s
  end.

Fixpoint trimEnd (s : string) : string :=
  match s with
  | EmptyString => EmptyString
  | String c rest =>
      match trimEnd rest with
      | EmptyString => if isWhiteSpace c then EmptyString else String c EmptyString
      | kept => String c kept
      end
  end.

(** [String.prototype.trim]. *)
Definition trim (s : string) : string := trimEnd (trimStart s).

(** Truthiness of a string: only the empty string is falsy. *)
Definition truthy (s : string) : bool :=
  match s with
  | EmptyString => false
  | String _ _ => true
  end.

(** Conversion of an integer to a string, as a template literal does it. *)
Definition numberToString (n : Z) : string :=
  NilEmpty.string_of_int (Z.to_int n).

(** An [Error] object: its [message], and the [status] property that
    [isRetryableError] reads ([None] when the property is undefined, as on
    every object built by [new Error(message)]). *)
Record Error := mkError { status : option Z; message : string }.

Definition newError (msg : string) : Error :=
  {| status := None; message := msg |}.

(** One element of the array [Promise.allSettled] resolves to. *)
Inductive SettledResult (A : Type) : Type :=
| fulfilled (value : A)
| rejected (reason : Error).

Arguments fulfilled {A} value.
Arguments rejected {A} reason.

(** [Array.prototype.slice(start, stop)] for [0 <= start]: the elements at
    positions [start], ..., [stop - 1] that exist. *)
Definition slice {A : Type} (start stop : nat) (l : list A) : list A :=
  firstn (stop - start) (skipn start l).

(** [Math.min(...l)]; [None] is [Infinity], the minimum of no number. *)
Definition mathMin (l : list Z) : option Z :=
  match l with
  | [] => None
  | x :: rest => Some (fold_left Z.min rest x)
  end.

End Js.

(** ** RateLimiter *)

Module RateLimiter.

Record t := mk { maxRequests : Z; windowMs : Z; requests : list Z }.

(** [constructor(maxRequests, windowMs)]. *)
Definition create (maxRequests windowMs : Z) : t :=
  {| maxRequests := maxRequests; windowMs := windowMs; requests := [] |}.

(** [this.requests.filter(time => now - time < this.windowMs)]. *)
Definition prune (now : Z) (rl : t) : t :=
  {| maxRequests := maxRequests rl;
     windowMs := windowMs rl;
     requests := filter (fun time => (now - time <? windowMs rl)%Z) (requests rl) |}.

(** What one pass through the body of [acquire] does, between reading the
    clock and either returning or suspending on the timer.  No [await] lies
    between the pruning, the test and the [push], so the pass is atomic. *)
Inductive Pass : Type :=
| Granted (rl : t)
| Suspended (waitTime : option Z) (rl : t).

Definition pass (now : Z) (rl : t) : Pass :=
  let rl' := prune now rl in
  if (maxRequests rl' <=? Z.of_nat (List.length (requests rl')))%Z then
    let waitTime :=
      match Js.mathMin (requests rl') with
      | Some oldestRequest => Some (windowMs rl' - (now - oldestRequest))%Z
      | None => None
      end in
    Suspended waitTime rl'
  else
    Granted {| maxRequests := maxRequests rl';
               windowMs := windowMs rl';
               requests := requests rl' ++ [now] |}.

(** [acquire()].  [clock] lists what [Date.now()] answers at each entry of
    the body: first on the call, then after each timer.  The result is the
    limiter after the call has returned, or [None] while the call is still
    suspended at the end of [clock]. *)
Fixpoint acquire (clock : list Z) (rl : t) : option t :=
  match clock with
  | [] => None
  | now :: later =>
      match pass now rl with
      | Granted rl' => Some rl'
      | Suspended _ rl' => acquire later rl'
      end
  end.

(** A sequence of calls of [acquire] on one limiter, each with its clock. *)
Fixpoint acquireAll (clocks : list (list Z)) (rl : t) : option t :=
  match clocks with
  | [] => Some rl
  | clock :: others =>
      match acquire clock rl with
      | Some rl' => acquireAll others rl'
      | None => None
      end
  end.


End RateLimiter.

(** The limiter a pass leaves behind, granted or suspended. *)
Definition afterPass (p : RateLimiter.Pass) : RateLimiter.t :=
  match p with
  | RateLimiter.Granted rl => rl
  | RateLimiter.Suspended _ rl => rl
  end.

(** Any interleaving of the passes of concurrent callers: each pass runs at
    its reading of the clock and leaves the limiter to the next one. *)
Definition passes (nows : list Z) (rl : RateLimiter.t) : RateLimiter.t :=
  fold_left (fun rl now => afterPass (RateLimiter.pass now rl)) nows rl.

(** ** The remote service as [deleteEvent] sees it *)

(** The [Response] of [fetch]: the three properties [deleteEvent] reads. *)
Module Response.
Record t := mk { ok : bool; status : Z; statusText : string }.
End Response.

(** [authManager.getValidToken()] resolves with a token or rejects with
    [new Error(chrome.runtime.lastError.message)]. *)
Inductive TokenResult : Type :=
| TokenGranted (token : string)
| TokenRefused (lastErrorMessage : string).

(** [fetch] resolves with a response or rejects with a [TypeError] that has
    a message and no [status]. *)
Inductive FetchResult : Type :=
| Responded (response : Response.t)
| NetworkFailure (msg : string).

(** What the environment answers to one round of [deleteEvent]: to its call
    of [getValidToken] and, if a token came, to its [fetch]. *)
Record Round := mkRound { tokenResult : TokenResult; fetchResult : FetchResult }.

(** What [deleteEvent] does to the outside world, in order. *)
Inductive Action : Type :=
| GetValidToken
| FetchDelete (calendarId eventId token : string)
| RemoveCachedAuthToken (token : string).

(** ** MessageRouter *)

Module MessageRouter.

(** [deleteEvent(calendarId, eventId)].  Each entry of the body consumes one
    round of [script]; the promise is still pending ([None]) when the script
    ends before the body has returned or thrown. *)
Fixpoint deleteEvent (script : list Round) (calendarId eventId : string)
  : option (Js.SettledResult string) * list Action :=
  match script with
  | [] => (None, [])
  | round :: later =>
      match tokenResult round with
      | TokenRefused msg => (Some (Js.rejected (Js.newError msg)), [GetValidToken])
      | TokenGranted token =>
          let sent := [GetValidToken; FetchDelete calendarId eventId token] in
          match fetchResult round with
          | NetworkFailure msg => (Some (Js.rejected (Js.newError msg)), sent)
          | Responded response =>
              if negb (Response.ok response) then
                if (Response.status response =? 401)%Z then
                  (* Token expired, retry once *)
                  let (result, actions) := deleteEvent later calendarId eventId in
                  (result, sent ++ [RemoveCachedAuthToken token] ++ actions)
                else
                  (Some (Js.rejected (Js.newError
                     ("HTTP " ++ Js.numberToString (Response.status response)
                              ++ ": " ++ Response.statusText response))),
                   sent)
              else (Some (Js.fulfilled eventId), sent)
          end
      end
  end.

Definition retryableCodes : list Z := [429; 500; 502; 503; 504]%Z.

(** [retryableCodes.includes(error.status)]: an undefined [status] is in no
    array of numbers. *)
Definition codesInclude (codes : list Z) (status : option Z) : bool :=
  match status with
  | Some code => existsb (Z.eqb code) codes
  | None => false
  end.

(** [isRetryableError(error)]. *)
Definition isRetryableError (error : Js.Error) : bool :=
  codesInclude retryableCodes (Js.status error) ||
  Js.includes "network" (Js.message error) ||
  Js.includes "timeout" (Js.message error).

(** An element of [request.events]. *)
Module Event.
Record t := mk {
  domEventId : string;
  actualEventId : string;
  calendarId : string;
  title : string }.
End Event.

(** An element of [results.successful]. *)
Module Success.
Record t := mk {
  domEventId : string;
  actualEventId : string;
  title : string }.
End Success.

(** An element of [results.failed]. *)
Module Failure.
Record t := mk {
  domEventId : string;
  actualEventId : string;
  title : string;
  error : string;
  retryable : bool }.
End Failure.

Module Results.
Record t := mk { successful : list Success.t; failed : list Failure.t }.
End Results.

(** What happens around one run, by position in [events]:
    - [deleteOutcome k] is how the promise of [this.deleteEvent] settles for
      the event at position [k];
    - [orchestrationFault i] is the exception, if any, that the awaited
      [Promise.allSettled] of the chunk starting at position [i] throws
      before any settled result is available.
    - [acquirePasses i] lists the readings of the clock at the passes
      through [rateLimiter.acquire()] that run, in this order, while the
      chunk starting at position [i] is in flight: the first pass of each
      attempt and the passes after the timers.
    [acquire] has no failing outcome and [deleteEvent] does not read the
    limiter, so the limiter delays an attempt and changes no outcome. *)
Record Env := mkEnv {
  deleteOutcome : nat -> Js.SettledResult string;
  orchestrationFault : nat -> option Js.Error;
  acquirePasses : nat -> list Z }.

(** Ghost trace of a run: the attempt on position [k] has been started, the
    event at position [k] has been pushed on [successful] or [failed]. *)
Inductive Trace : Type :=
| Dispatched (k : nat)
| Recorded (k : nat).

(** The variables of [performBulkDeletion], and the ghost trace. *)
Record State := mkState {
  results : Results.t;
  rateLimiter : RateLimiter.t;
  trace : list Trace }.

(** The async callback of [batch.map], once settled. *)
Definition attempt (env : Env) (k : nat) (event : Event.t)
  : Js.SettledResult Success.t :=
  match deleteOutcome env k with
  | Js.fulfilled _ =>
      Js.fulfilled {| Success.domEventId := Event.domEventId event;
                      Success.actualEventId := Event.actualEventId event;
                      Success.title := Event.title event |}
  | Js.rejected reason => Js.rejected reason
  end.

Definition pushSuccessful (value : Success.t) (r : Results.t) : Results.t :=
  {| Results.successful := Results.successful r ++ [value];
     Results.failed := Results.failed r |}.

Definition pushFailed (f : Failure.t) (r : Results.t) : Results.t :=
  {| Results.successful := Results.successful r;
     Results.failed := Results.failed r ++ [f] |}.

(** The callback of [batchResults.forEach((result, index) => ...)], at
    position [i + index] of the input; [batch[index]] exists because
    [batchResults] is as long as [batch]. *)
Definition classify (i : nat) (batch : list Event.t) (st : State)
  (entry : nat * Js.SettledResult Success.t) : State :=
  let (index, result) := entry in
  match nth_error batch index with
  | None => st
  | Some event =>
      {| results :=
           match result with
           | Js.fulfilled value => pushSuccessful value (results st)
           | Js.rejected reason =>
               pushFailed
                 {| Failure.domEventId := Event.domEventId event;
                    Failure.actualEventId := Event.actualEventId event;
                    Failure.title := Event.title event;
                    Failure.error := Js.message reason;
                    Failure.retryable := isRetryableError reason |}
                 (results st)
           end;
         rateLimiter := rateLimiter st;
         trace := trace st ++ [Recorded (i + index)] |}
  end.

(** The callback of [batch.forEach(event => ...)] in the [catch] block. *)
Definition recordFault (batchError : Js.Error) (st : State)
  (entry : nat * Event.t) : State :=
  let (k, event) := entry in
  {| results :=
       pushFailed
         {| Failure.domEventId := Event.domEventId event;
            Failure.actualEventId := Event.actualEventId event;
            Failure.title := Event.title event;
            Failure.error := Js.message batchError;
            Failure.retryable := true |}
         (results st);
     rateLimiter := rateLimiter st;
     trace := trace st ++ [Recorded k] |}.

(** [l] with the positions of its elements, counted from [start]. *)
Definition indexed {A : Type} (start : nat) (l : list A) : list (nat * A) :=
  combine (seq start (List.length l)) l.

(** The body of the [for] loop: the [try] block on [batch], and its [catch]. *)
Definition processBatch (env : Env) (i : nat) (batch : list Event.t)
  (st : State) : State :=
  let started :=
    {| results := results st;
       rateLimiter := passes (acquirePasses env i) (rateLimiter st);
       trace := trace st ++ map Dispatched (seq i (List.length batch)) |} in
  match orchestrationFault env i with
  | None =>
      let batchResults :=
        map (fun entry => attempt env (i + fst entry) (snd entry))
            (indexed 0 batch) in
      fold_left (classify i batch) (indexed 0 batchResults) started
  | Some batchError =>
      fold_left (recordFault batchError) (indexed i batch) started
  end.

(** The [for] loop of [performBulkDeletion], from loop variable [i]: one
    unit of [fuel] per iteration. *)
Fixpoint bulkLoop (batchSize : nat) (env : Env) (events : list Event.t)
  (fuel i : nat) (st : State) : option State :=
  if (List.length events <=? i)%nat then Some st
  else
    match fuel with
    | O => None
    | S fuel' =>
        let batch := Js.slice i (i + batchSize) events in
        bulkLoop batchSize env events fuel' (i + batchSize)
                 (processBatch env i batch st)
    end.

(** The state before the loop: empty results and
    [new RateLimiter(10, 1000)], 10 requests per second. *)
Definition emptyState : State :=
  {| results := {| Results.successful := []; Results.failed := [] |};
     rateLimiter := RateLimiter.create 10 1000;
     trace := [] |}.

(** The run with the batch size as a parameter. *)
Definition bulkDeletion (batchSize : nat) (env : Env) (events : list Event.t)
  : option State :=
  bulkLoop batchSize env events (List.length events) 0 emptyState.

Definition batchSize : nat := 10.

(** [performBulkDeletion(events)]. *)
Definition performBulkDeletion (env : Env) (events : list Event.t)
  : option State :=
  bulkDeletion batchSize env events.

End MessageRouter.

(** ** CustomDialogManager: the filter of the bulk delete dialog *)

Module CustomDialogManager.

(** An event of the dialog, as [extractEventData] and [getCurrentViewEvents]
    build it ([element] left out).  [startTime] and [endTime] are an
    attribute value or an API date string, or [null]. *)
Module Event.
Record t := mk {
  id : string;
  actualEventId : option string;
  calendarId : option string;
  title : string;
  startTime : option string;
  endTime : option string;
  canDelete : bool }.
End Event.

(** The values of the three inputs of the dialog. *)
Record Inputs := mkInputs {
  titleFilter : string;
  dateFrom : string;
  dateTo : string }.

(** A [Date]: its time value, [None] for an invalid date. *)
Definition Date : Type := option Z.

(** [a < b] and [a > b] on dates: a comparison with an invalid date is
    false. *)
Definition dateLt (a b : Date) : bool :=
  match a, b with
  | Some x, Some y => (x <? y)%Z
  | _, _ => false
  end.

Definition dateGt (a b : Date) : bool :=
  match a, b with
  | Some x, Some y => (y <? x)%Z
  | _, _ => false
  end.

(** Truthiness of [event.startTime]: [null] and the empty string are falsy. *)
Definition knownString (v : option string) : option string :=
  match v with
  | Some s => if Js.truthy s then Some s else None
  | None => None
  end.

Section Filter.

(** [new Date(string)]: the date parser of the platform. *)
Variable newDate : string -> Date.

(** [value ? new Date(value) : null]. *)
Definition dateOrNull (value : string) : option Date :=
  if Js.truthy value then Some (newDate value) else None.

(** The callback of [allEvents.filter] in [updateFilteredEvents], under the
    constants [titleKeyword], [fromDate] and [toDate]. *)
Definition keeps (titleKeyword : string) (fromDate toDate : option Date)
  (event : Event.t) : bool :=
  if negb (Event.canDelete event) then false
  else if Js.truthy titleKeyword
          && negb (Js.includes titleKeyword (Js.toLowerCase (Event.title event)))
  then false
  else
    match knownString (Event.startTime event) with
    | Some startTime =>
        let eventDate := newDate startTime in
        if match fromDate with Some d => dateLt eventDate d | None => false end
        then false
        else if match toDate with Some d => dateGt eventDate d | None => false end
        then false
        else true
    | None => true
    end.

(** [updateFilteredEvents]: the new value of [filteredEvents]. *)
Definition updateFilteredEvents (inputs : Inputs) (allEvents : list Event.t)
  : list Event.t :=
  let titleKeyword := Js.trim (Js.toLowerCase (titleFilter inputs)) in
  let fromDate := dateOrNull (dateFrom inputs) in
  let toDate := dateOrNull (dateTo inputs) in
  filter (keeps titleKeyword fromDate toDate) allEvents.

End Filter.

End CustomDialogManager.

(** ** The filter criteria as the specification words them *)

Module Criteria.

Import CustomDialogManager.

(** The title keyword of the criteria: what was typed, absent when nothing
    was typed. *)
Definition titleKeyword (inputs : Inputs) : option string :=
  if Js.truthy (titleFilter inputs) then Some (titleFilter inputs) else None.

(** The keyword with the white space around it removed, absent when nothing
    else was typed. *)
Definition trimmedKeyword (inputs : Inputs) : option string :=
  if Js.truthy (Js.trim (titleFilter inputs))
  then Some (Js.trim (titleFilter inputs)) else None.

(** A date of the criteria: the timestamp the input holds, if it holds one. *)
Definition timestamp (newDate : string -> Date) (value : string) : option Z :=
  if Js.truthy value then newDate value else None.

(** The start of an event, when it is known. *)
Definition start (newDate : string -> Date) (event : Event.t) : option Z :=
  match knownString (Event.startTime event) with
  | Some s => newDate s
  | None => None
  end.

(** [title] contains [keyword], letter case ignored. *)
Definition containsIgnoringCase (title keyword : string) : bool :=
  Js.includes (Js.toLowerCase keyword) (Js.toLowerCase title).

(** [bound] is absent, or the start is unknown, or [rel start bound]. *)
Definition within (rel : Z -> Z -> bool) (start bound : option Z) : bool :=
  match bound, start with
  | Some b, Some s => rel s b
  | _, _ => true
  end.

(** The retention rule with a given keyword and the dates of the inputs. *)
Definition retainedWith (newDate : string -> Date) (keyword : option string)
  (inputs : Inputs) (event : Event.t) : bool :=
  Event.canDelete event
  && match keyword with
     | None => true
     | Some k => containsIgnoringCase (Event.title event) k
     end
  && within Z.geb (start newDate event) (timestamp newDate (dateFrom inputs))
  && within Z.leb (start newDate event) (timestamp newDate (dateTo inputs)).

(** The rule as stated: the keyword is the one typed. *)
Definition retained (newDate : string -> Date) (inputs : Inputs)
  (event : Event.t) : bool :=
  retainedWith newDate (titleKeyword inputs) inputs event.

(** The rule the filter follows: the keyword is the trimmed one. *)
Definition retainedTrimmed (newDate : string -> Date) (inputs : Inputs)
  (event : Event.t) : bool :=
  retainedWith newDate (trimmedKeyword inputs) inputs event.

End Criteria.


(** ** Vocabulary of the properties *)

Section Vocabulary.

Import MessageRouter.

(** The bound of the sliding window: no more recorded timestamps than
    [maxRequests]. *)
Definition bounded (rl : RateLimiter.t) : Prop :=
  (Z.of_nat (List.length (RateLimiter.requests rl)) <= RateLimiter.maxRequests rl)%Z.

(** A round in which the service answers the request with [401]. *)
Definition unauthorized (token : string) : Round :=
  {| tokenResult := TokenGranted token;
     fetchResult := Responded (Response.mk false 401 "Unauthorized") |}.

(** A round in which the service answers the request with a status. *)
Definition answered (token : string) (ok : bool) (status : Z) (text : string)
  : Round :=
  {| tokenResult := TokenGranted token;
     fetchResult := Responded (Response.mk ok status text) |}.

(** What [deleteEvent] does in a round answered with [401]. *)
Definition retryActions (calendarId eventId token : string) : list Action :=
  [GetValidToken; FetchDelete calendarId eventId token;
   RemoveCachedAuthToken token].

(** The entries the run builds for an event. *)
Definition successOf (event : Event.t) : Success.t :=
  {| Success.domEventId := Event.domEventId event;
     Success.actualEventId := Event.actualEventId event;
     Success.title := Event.title event |}.

Definition failureOf (event : Event.t) (reason : Js.Error) : Failure.t :=
  {| Failure.domEventId := Event.domEventId event;
     Failure.actualEventId := Event.actualEventId event;
     Failure.title := Event.title event;
     Failure.error := Js.message reason;
     Failure.retryable := isRetryableError reason |}.

Definition faultFailureOf (event : Event.t) (batchError : Js.Error) : Failure.t :=
  {| Failure.domEventId := Event.domEventId event;
     Failure.actualEventId := Event.actualEventId event;
     Failure.title := Event.title event;
     Failure.error := Js.message batchError;
     Failure.retryable := true |}.

(** Where one event ends up: on [successful] or on [failed]. *)
Definition Verdict : Type := (Success.t + Failure.t)%type.

Definition settle (env : Env) (k : nat) (event : Event.t) : Verdict :=
  match deleteOutcome env k with
  | Js.fulfilled _ => inl (successOf event)
  | Js.rejected reason => inr (failureOf event reason)
  end.

(** The verdict on the event at position [k] of the chunk starting at [i]. *)
Definition verdict (env : Env) (i k : nat) (event : Event.t) : Verdict :=
  match orchestrationFault env i with
  | Some batchError => inr (faultFailureOf event batchError)
  | None => settle env k event
  end.

(** The start of the chunk of position [k]. *)
Definition chunkStart (size k : nat) : nat := k / size * size.

Definition verdictAt (size : nat) (env : Env) (entry : nat * Event.t) : Verdict :=
  verdict env (chunkStart size (fst entry)) (fst entry) (snd entry).

Fixpoint successes (vs : list Verdict) : list Success.t :=
  match vs with
  | [] => []
  | inl s :: rest => s :: successes rest
  | inr _ :: rest => successes rest
  end.

Fixpoint failures (vs : list Verdict) : list Failure.t :=
  match vs with
  | [] => []
  | inl _ :: rest => failures rest
  | inr f :: rest => f :: failures rest
  end.

(** Pushing one verdict, with its ghost trace entry. *)
Definition record (st : State) (kv : nat * Verdict) : State :=
  {| results :=
       match snd kv with
       | inl s => pushSuccessful s (results st)
       | inr f => pushFailed f (results st)
       end;
     rateLimiter := rateLimiter st;
     trace := trace st ++ [Recorded (fst kv)] |}.

(** The ghost trace of one chunk. *)
Definition chunkTrace {A : Type} (chunk : list (nat * A)) : list Trace :=
  map Dispatched (map fst chunk) ++ map Recorded (map fst chunk).

(** [Chunks size l parts]: [parts] cuts [l] the way the loop does, [size]
    elements at a time from the front. *)
Inductive Chunks {A : Type} (size : nat) : list A -> list (list A) -> Prop :=
| Chunks_done : Chunks size [] []
| Chunks_step l parts :
    l <> [] -> Chunks size (skipn size l) parts ->
    Chunks size l (firstn size l :: parts).

(** A verdict is about an event when it carries the identity of the event. *)
Definition about (event : Event.t) (v : Verdict) : Prop :=
  match v with
  | inl s => s = successOf event
  | inr f =>
      Failure.domEventId f = Event.domEventId event
      /\ Failure.actualEventId f = Event.actualEventId event
      /\ Failure.title f = Event.title event
  end.

(** Sample runs: three events of which the second is refused, and
    twenty-three events whose second chunk throws. *)
Definition sampleEvent (name : string) : MessageRouter.Event.t :=
  MessageRouter.Event.mk ("dom-" ++ name) name "primary" ("Title " ++ name).

Definition forbidden : Js.Error := Js.newError "HTTP 403: Forbidden".

Definition secondRefused : MessageRouter.Env :=
  MessageRouter.mkEnv
    (fun k => if (k =? 1)%nat then Js.rejected forbidden else Js.fulfilled "deleted")
    (fun _ => None)
    (fun _ => [0; 0; 1]%Z).

Definition engineFault : Js.Error := Js.newError "allSettled is not a function".

Definition secondChunkThrows : MessageRouter.Env :=
  MessageRouter.mkEnv
    (fun k => if (k =? 1)%nat then Js.rejected forbidden else Js.fulfilled "deleted")
    (fun i => if (i =? 10)%nat then Some engineFault else None)
    (fun i => repeat (Z.of_nat i * 120)%Z (Nat.min 10 (23 - i))).

Definition threeEvents : list MessageRouter.Event.t :=
  map sampleEvent ["e1"; "e2"; "e3"].

Definition manyEvents : list MessageRouter.Event.t :=
  map (fun n => sampleEvent (Js.numberToString (Z.of_nat n))) (seq 0 23).

(** An event titled "Team", deletable, with no known start. *)
Definition teamEvent : CustomDialogManager.Event.t :=
  CustomDialogManager.Event.mk
    "ZG9t" (Some "e1") (Some "primary") "Team" None None true.

End Vocabulary.

(** * The content script and the message handler

    A shallow embedding of the content script ([CalendarExtension]: the
    event cache, [parseEventId], [extractEventData], [cacheEvents],
    [handleCalendarChanges], [getCurrentViewEvents], [performBulkDeletion],
    [showBulkDeleteDialog]) and of [MessageRouter.handleMessage] of the
    service worker.

    Conventions of this part.
    - The functions of the platform are arguments: [atob], [new Date], and
      the messages of the [TypeError]s the platform throws.
    - An [async] function is cut at its [await]s; each piece runs on the
      cache as it is then, and a function named as in the source composes
      its pieces for the case that nothing else runs in between.
    - What is shown to the user is a list of structured values, not the
      rendered text. *)

(** ** More of JavaScript's strings *)

Module JsText.

(** [s.split(sep)] for a separator of one code unit: the pieces between the
    separators, at least one piece. *)
Fixpoint split (sep : ascii) (s : string) : list string :=
  match s with
  | EmptyString => [EmptyString]
  | String c rest =>
      if Ascii.eqb c sep then EmptyString :: split sep rest
      else
        match split sep rest with
        | [] => [String c EmptyString]
        | piece :: pieces => String c piece :: pieces
        end
  end.

(** [parts.join(sep)]. *)
Fixpoint join (sep : string) (parts : list string) : string :=
  match parts with
  | [] => EmptyString
  | [part] => part
  | part :: others => (part ++ sep ++ join sep others)%string
  end.

(** [\d]: an ASCII digit. *)
Definition isDigit (c : ascii) : bool :=
  let n := nat_of_ascii c in (48 <=? n)%nat && (n <=? 57)%nat.

(** A line terminator, which [.] does not match: LF or CR. *)
Definition isLineTerminator (c : ascii) : bool :=
  let n := nat_of_ascii c in (n =? 10)%nat || (n =? 13)%nat.

(** [s] after [n] leading digits, if it starts with [n] digits. *)
Fixpoint afterDigits (n : nat) (s : string) : option string :=
  match n with
  | O => Some s
  | S n' =>
      match s with
      | EmptyString => None
      | String c rest => if isDigit c then afterDigits n' rest else None
      end
  end.

Fixpoint allChars (p : ascii -> bool) (s : string) : bool :=
  match s with
  | EmptyString => true
  | String c rest => p c && allChars p rest
  end.

(** Group 1 of [s.match(/^\d{8}_(.+)$/)], [None] when there is no match:
    eight digits, an underscore, and then at least one character and no line
    terminator up to the end. *)
Definition matchDatedId (s : string) : option string :=
  match afterDigits 8 s with
  | Some (String c rest) =>
      if Ascii.eqb c "_" && Js.truthy rest
         && allChars (fun d => negb (isLineTerminator d)) rest
      then Some rest else None
  | _ => None
  end.

(** Truthiness of a string or [null]. *)
Definition truthy (v : option string) : bool :=
  match v with
  | Some s => Js.truthy s
  | None => false
  end.

(** [a || b] on strings or [null]. *)
Definition or (a b : option string) : option string :=
  if truthy a then a else b.

End JsText.

(** ** A JavaScript [Map] with string keys *)

Module JsMap.

Section Map.

Variable V : Type.

(** The entries in insertion order; [set] keeps the keys distinct. *)
Definition t : Type := list (string * V).

Definition empty : t := [].

(** [map.get(key)]; [None] is [undefined]. *)
Fixpoint get (key : string) (m : t) : option V :=
  match m with
  | [] => None
  | (k, v) :: rest => if String.eqb k key then Some v else get key rest
  end.

(** [map.has(key)]. *)
Definition has (key : string) (m : t) : bool :=
  match get key m with
  | Some _ => true
  | None => false
  end.

(** [map.set(key, value)]: a key already present keeps its place. *)
Fixpoint set (key : string) (value : V) (m : t) : t :=
  match m with
  | [] => [(key, value)]
  | (k, v) :: rest =>
      if String.eqb k key then (key, value) :: rest
      else (k, v) :: set key value rest
  end.

(** [map.delete(key)]. *)
Definition delete (key : string) (m : t) : t :=
  filter (fun entry => negb (String.eqb (fst entry) key)) m.

(** [Array.from(map.values())]. *)
Definition values (m : t) : list V := map snd m.

Definition keys (m : t) : list string := map fst m.

End Map.

Arguments empty {V}.
Arguments get {V} key m.
Arguments has {V} key m.
Arguments set {V} key value m.
Arguments delete {V} key m.
Arguments values {V} m.
Arguments keys {V} m.

End JsMap.

(** ** Messages between the content script and the service worker *)

(** An event of the Calendar API, as far as the extension reads it:
    [id], [summary], [organizer?.email], [creator?.email], [start?.dateTime],
    [start?.date], [end?.dateTime], [end?.date]. *)
Module ApiEvent.
Record t := mk {
  id : string;
  summary : option string;
  organizerEmail : option string;
  creatorEmail : option string;
  startDateTime : option string;
  startDate : option string;
  endDateTime : option string;
  endDate : option string }.
End ApiEvent.

(** What [sendResponse] is called with. *)
Inductive Reply : Type :=
| ReplyResult (result : MessageRouter.Results.t)
| ReplyToken (token : string)
| ReplyDone
| ReplyEvents (events : list ApiEvent.t)
| ReplyError (error : string).

(** [response.success]. *)
Definition success (reply : Reply) : bool :=
  match reply with
  | ReplyError _ => false
  | _ => true
  end.

(** ** MessageRouter.handleMessage *)

Module ServiceWorker.

(** A request, by its [action]; [events] may be missing from a
    [BULK_DELETE_EVENTS] request. *)
Inductive Request : Type :=
| BULK_DELETE_EVENTS (events : option (list MessageRouter.Event.t))
| GET_AUTH_TOKEN
| REVOKE_AUTH
| GET_CALENDAR_EVENTS
| OtherAction (action : string).

(** What the awaited calls of [handleMessage] do: the run of
    [performBulkDeletion], how [authManager.getValidToken()],
    [authManager.revokeToken()] and [this.getCalendarEvents(...)] settle,
    and the message of the [TypeError] of reading [length] of
    [undefined]. *)
Record World := mkWorld {
  deletion : MessageRouter.Env;
  validToken : Js.SettledResult string;
  revocation : Js.SettledResult unit;
  calendarEvents : Js.SettledResult (list ApiEvent.t);
  undefinedLength : string }.

(** [handleMessage(request, sender, sendResponse)]: what [sendResponse] is
    called with; [None] while [performBulkDeletion] has not returned. *)
Definition handleMessage (world : World) (request : Request) : option Reply :=
  match request with
  | BULK_DELETE_EVENTS None =>
      Some (ReplyError (undefinedLength world))
  | BULK_DELETE_EVENTS (Some events) =>
      match MessageRouter.performBulkDeletion (deletion world) events with
      | Some st => Some (ReplyResult (MessageRouter.results st))
      | None => None
      end
  | GET_AUTH_TOKEN =>
      match validToken world with
      | Js.fulfilled token => Some (ReplyToken token)
      | Js.rejected error => Some (ReplyError (Js.message error))
      end
  | REVOKE_AUTH =>
      match revocation world with
      | Js.fulfilled _ => Some ReplyDone
      | Js.rejected error => Some (ReplyError (Js.message error))
      end
  | GET_CALENDAR_EVENTS =>
      match calendarEvents world with
      | Js.fulfilled events => Some (ReplyEvents events)
      | Js.rejected error => Some (ReplyError (Js.message error))
      end
  | OtherAction _ => Some (ReplyError "Unknown action")
  end.

End ServiceWorker.

(** ** CalendarExtension: the content script *)

Module CalendarExtension.

Module Event := CustomDialogManager.Event.

Definition readOnlyCalendars : list string :=
  ["en.usa#holiday@group.v.calendar.google.com";
   "en.uk#holiday@group.v.calendar.google.com";
   "en.canadian#holiday@group.v.calendar.google.com";
   "jewish#holiday@group.v.calendar.google.com";
   "en.christian#holiday@group.v.calendar.google.com";
   "en.islamic#holiday@group.v.calendar.google.com"].

(** [canDeleteFromCalendar(calendarId)]. *)
Definition canDeleteFromCalendar (calendarId : string) : bool :=
  if existsb (fun readOnly => Js.includes readOnly calendarId) readOnlyCalendars
  then false
  else if Js.includes "#holiday@" calendarId then false
  else true.

(** What [parseEventId] returns. *)
Record Parsed := mkParsed {
  eventId : option string;
  calendarId : option string;
  canDelete : bool }.

Definition unparsed : Parsed :=
  {| eventId := None; calendarId := None; canDelete := false |}.

(** What the content script reads of an element selected by
    [[data-eventid]]: the attribute, which such an element has, the
    [textContent] of its title element, and the four time attributes. *)
Record Element := mkElement {
  dataEventid : string;
  titleText : string;
  dataStartTime : option string;
  dataEventstart : option string;
  dataEndTime : option string;
  dataEventend : option string }.

(** [this.eventCache]. *)
Definition Cache : Type := JsMap.t Event.t.

(** An element of [nonDeletableEvents]. *)
Record NonDeletable := mkNonDeletable {
  domEventId : string;
  title : string;
  reason : string }.

(** What [performBulkDeletion] shows and sends, in order.  An alert stands
    for the text rendered from the values it carries, and [RemoveElement]
    for the removal of the element with this identifier if the page has
    one. *)
Inductive Ui : Type :=
| AlertNonDeletable (events : list NonDeletable)
| AlertNothingToDelete
| ShowProgress (count : nat)
| SendBulkDelete (events : list MessageRouter.Event.t)
| CloseProgress
| RemoveElement (domEventId : string)
| AlertSummary (successful : nat) (failed : list MessageRouter.Failure.t)
               (skipped : nat)
| ScheduleReload
| AlertNoEvents
| AlertError (message : string).

(** [this.eventCache] and [this.isProcessing]. *)
Record State := mkState { eventCache : Cache; isProcessing : bool }.

(** What the user does with the bulk delete dialog: cancel it, or confirm
    with these values in the inputs and accept the final confirmation. *)
Inductive Choice : Type :=
| Cancel
| Confirm (inputs : CustomDialogManager.Inputs).

(** [showBulkDeleteDialog(events)] of the dialog manager: what the promise
    resolves with, [Some None] for [null] and [Some (Some eventIds)]; the
    confirm button does nothing while no event is selected, and the dialog
    stays open ([None]). *)
Definition dialog (newDate : string -> CustomDialogManager.Date)
  (choice : Choice) (events : list Event.t) : option (option (list string)) :=
  match choice with
  | Cancel => Some None
  | Confirm inputs =>
      let filteredEvents :=
        CustomDialogManager.updateFilteredEvents newDate inputs events in
      match filteredEvents with
      | [] => None
      | _ :: _ => Some (Some (map Event.id filteredEvents))
      end
  end.

Section Page.

(** [atob] of the platform: the decoded string, or [None] when it throws. *)
Variable atob : string -> option string.

(** The messages of the two [TypeError]s of the platform: of calling [map]
    on the missing [events] of a reply, and of destructuring its missing
    [result]. *)
Variable noEvents : string.
Variable noResult : string.

(** [parseEventId(domEventId)]; the [catch] block falls through to the
    final [return]. *)
Definition parseEventId (domEventId : option string) : Parsed :=
  if negb (JsText.truthy domEventId) then unparsed
  else
    match domEventId with
    | None => unparsed
    | Some id =>
        match atob id with
        | None => unparsed
        | Some decoded =>
            let parts := JsText.split " " decoded in
            if (2 <=? List.length parts)%nat then
              let dateAndEventId := hd EmptyString parts in
              let calendarId := JsText.join " " (tl parts) in
              let actualEventId :=
                match JsText.matchDatedId dateAndEventId with
                | Some group => group
                | None => dateAndEventId
                end in
              {| eventId := Some actualEventId;
                 calendarId := Some calendarId;
                 canDelete := canDeleteFromCalendar calendarId |}
            else unparsed
        end
    end.

(** [extractStartTime(element)]. *)
Definition extractStartTime (element : Element) : option string :=
  let timeAttr := JsText.or (dataStartTime element) (dataEventstart element) in
  JsText.or timeAttr None.

(** [extractEndTime(element)]. *)
Definition extractEndTime (element : Element) : option string :=
  let timeAttr := JsText.or (dataEndTime element) (dataEventend element) in
  JsText.or timeAttr None.

(** [extractEventData(element)], without the [element] property. *)
Definition extractEventData (element : Element) : Event.t :=
  let domEventId := dataEventid element in
  let parsedEventData := parseEventId (Some domEventId) in
  {| Event.id := domEventId;
     Event.actualEventId := eventId parsedEventData;
     Event.calendarId := calendarId parsedEventData;
     Event.title :=
       let trimmed := Js.trim (titleText element) in
       if Js.truthy trimmed then trimmed else "Untitled Event";
     Event.startTime := extractStartTime element;
     Event.endTime := extractEndTime element;
     Event.canDelete := canDelete parsedEventData |}.

(** [cacheEvents(eventElements)]. *)
Definition cacheEvents (eventElements : list Element) (cache : Cache) : Cache :=
  fold_left
    (fun cache element =>
       let eventId := dataEventid element in
       if Js.truthy eventId && negb (JsMap.has eventId cache)
       then JsMap.set eventId (extractEventData element) cache
       else cache)
    eventElements cache.

(** An added node of a mutation: an element, with the elements selected by
    [[data-eventid]] under it, or another kind of node. *)
Inductive Node : Type :=
| ElementNode (events : list Element)
| OtherNode.

(** [handleCalendarChanges(mutations)], each mutation with its added
    nodes. *)
Definition handleCalendarChanges (mutations : list (list Node)) (cache : Cache)
  : Cache :=
  fold_left
    (fun cache addedNodes =>
       fold_left
         (fun cache node =>
            match node with
            | ElementNode ((_ :: _) as events) => cacheEvents events cache
            | _ => cache
            end)
         addedNodes cache)
    mutations cache.

(** The event built from an event of the API in [getCurrentViewEvents];
    [requestedCalendarId] is ['primary']. *)
Definition eventOfApi (event : ApiEvent.t) : Event.t :=
  let calendarId :=
    match JsText.or (JsText.or (ApiEvent.organizerEmail event)
                               (ApiEvent.creatorEmail event))
                    (Some "primary") with
    | Some id => id
    | None => "primary"
    end in
  {| Event.id := ApiEvent.id event;
     Event.actualEventId := Some (ApiEvent.id event);
     Event.calendarId := Some calendarId;
     Event.title :=
       match JsText.or (ApiEvent.summary event) (Some "Untitled Event") with
       | Some text => text
       | None => "Untitled Event"
       end;
     Event.startTime :=
       JsText.or (JsText.or (ApiEvent.startDateTime event)
                            (ApiEvent.startDate event)) None;
     Event.endTime :=
       JsText.or (JsText.or (ApiEvent.endDateTime event)
                            (ApiEvent.endDate event)) None;
     Event.canDelete := canDeleteFromCalendar calendarId |}.

(** [this.eventCache.set(eventData.id, eventData)] for each event. *)
Definition cacheAll (events : list Event.t) (cache : Cache) : Cache :=
  fold_left (fun cache eventData => JsMap.set (Event.id eventData) eventData cache)
            events cache.

(** [getCurrentViewEvents()] up to its [await]: the events of the cache,
    else those of the elements of the [page], which are cached; [None] when
    there are neither and the service worker is asked. *)
Definition viewEventsNow (page : list Element) (cache : Cache)
  : option (list Event.t * Cache) :=
  match JsMap.values cache with
  | (_ :: _) as events => Some (events, cache)
  | [] =>
      match map extractEventData page with
      | (_ :: _) as events => Some (events, cacheAll events cache)
      | [] => None
      end
  end.

(** [getCurrentViewEvents()] after its [await], on the cache as it is then:
    the events of the [answer] of the service worker, which are cached.  It
    rejects when [sendMessage] does, and when a successful reply has no
    [events]. *)
Definition viewEventsAnswered (answer : Js.SettledResult Reply) (cache : Cache)
  : Js.SettledResult (list Event.t) * Cache :=
  match answer with
  | Js.rejected reason => (Js.rejected reason, cache)
  | Js.fulfilled (ReplyEvents apiEvents) =>
      let events := map eventOfApi apiEvents in
      (Js.fulfilled events, cacheAll events cache)
  | Js.fulfilled (ReplyError _) => (Js.fulfilled [], cache)
  | Js.fulfilled _ => (Js.rejected (Js.newError noEvents), cache)
  end.

(** [getCurrentViewEvents()] when nothing else touches the cache during the
    [await]. *)
Definition getCurrentViewEvents (page : list Element)
  (answer : Js.SettledResult Reply) (cache : Cache)
  : Js.SettledResult (list Event.t) * Cache :=
  match viewEventsNow page cache with
  | Some (events, cache') => (Js.fulfilled events, cache')
  | None => viewEventsAnswered answer cache
  end.

(** The body of the loop [for (const domEventId of eventDomIds)]: the new
    values of [eventsToDelete] and [nonDeletableEvents]. *)
Definition sort (cache : Cache)
  (lists : list MessageRouter.Event.t * list NonDeletable) (domEventId : string)
  : list MessageRouter.Event.t * list NonDeletable :=
  let (eventsToDelete, nonDeletableEvents) := lists in
  match JsMap.get domEventId cache with
  | None => lists
  | Some cachedEvent =>
      match Event.canDelete cachedEvent,
            Event.actualEventId cachedEvent, Event.calendarId cachedEvent with
      | true, Some actualEventId, Some calendarId =>
          if Js.truthy actualEventId && Js.truthy calendarId then
            (eventsToDelete
               ++ [{| MessageRouter.Event.domEventId := domEventId;
                      MessageRouter.Event.actualEventId := actualEventId;
                      MessageRouter.Event.calendarId := calendarId;
                      MessageRouter.Event.title := Event.title cachedEvent |}],
             nonDeletableEvents)
          else
            (eventsToDelete,
             nonDeletableEvents
               ++ [{| domEventId := domEventId;
                      title := Event.title cachedEvent;
                      reason := "Missing event data" |}])
      | canDelete, _, _ =>
          (eventsToDelete,
           nonDeletableEvents
             ++ [{| domEventId := domEventId;
                    title := Event.title cachedEvent;
                    reason := if canDelete then "Missing event data"
                              else "Read-only calendar" |}])
      end
  end.

(** The two lists after the loop. *)
Definition sortAll (cache : Cache) (eventDomIds : list string)
  : list MessageRouter.Event.t * list NonDeletable :=
  fold_left (sort cache) eventDomIds ([], []).

(** The [forEach] over [successful]: the entries leave the cache. *)
Definition forget (successful : list MessageRouter.Success.t) (cache : Cache)
  : Cache :=
  fold_left (fun cache result =>
               JsMap.delete (MessageRouter.Success.domEventId result) cache)
            successful cache.

(** The warning about the events that cannot be deleted, if any. *)
Definition warning (nonDeletableEvents : list NonDeletable) : list Ui :=
  match nonDeletableEvents with
  | [] => []
  | _ :: _ => [AlertNonDeletable nonDeletableEvents]
  end.

(** [performBulkDeletion(eventDomIds)] up to the [await] of [sendMessage],
    or to its early [return]: what is shown and sent.  The user dismisses
    the warning, which the code awaits. *)
Definition announce (lists : list MessageRouter.Event.t * list NonDeletable)
  : list Ui :=
  let (eventsToDelete, nonDeletableEvents) := lists in
  match eventsToDelete with
  | [] => warning nonDeletableEvents ++ [AlertNothingToDelete]
  | _ :: _ =>
      warning nonDeletableEvents
        ++ [ShowProgress (List.length eventsToDelete);
            SendBulkDelete eventsToDelete]
  end.

(** [performBulkDeletion(eventDomIds)] after the [await] of [sendMessage],
    on the cache as it is then: the cache afterwards and what is shown.
    [answer] is how [sendMessage] settles; only a reply with a result has
    the [successful] and [failed] the code destructures. *)
Definition conclude (answer : Js.SettledResult Reply)
  (nonDeletableEvents : list NonDeletable) (cache : Cache) : Cache * list Ui :=
  match answer with
  | Js.rejected error => (cache, [AlertError (Js.message error)])
  | Js.fulfilled (ReplyResult result) =>
      let successful := MessageRouter.Results.successful result in
      let failed := MessageRouter.Results.failed result in
      (forget successful cache,
       [CloseProgress]
         ++ map (fun r => RemoveElement (MessageRouter.Success.domEventId r))
                successful
         ++ [AlertSummary (List.length successful) failed
                          (List.length nonDeletableEvents);
             ScheduleReload])
  | Js.fulfilled (ReplyError error) => (cache, [CloseProgress; AlertError error])
  | Js.fulfilled _ => (cache, [CloseProgress; AlertError noResult])
  end.

(** [performBulkDeletion(eventDomIds)] when nothing else touches the cache
    during its [await]s: the state afterwards, [isProcessing] reset by the
    [finally] block, and what was shown and sent. *)
Definition performBulkDeletion
  (answer : Js.SettledResult Reply) (eventDomIds : list string) (st : State)
  : State * list Ui :=
  let lists := sortAll (eventCache st) eventDomIds in
  match fst lists with
  | [] => ({| eventCache := eventCache st; isProcessing := false |}, announce lists)
  | _ :: _ =>
      let (cache, shown) := conclude answer (snd lists) (eventCache st) in
      ({| eventCache := cache; isProcessing := false |}, announce lists ++ shown)
  end.

(** [showBulkDeleteDialog()] of the content script, from the click on the
    bulk button to the end, when nothing else touches the cache meanwhile;
    [None] while the dialog stays open. *)
Definition showBulkDeleteDialog (newDate : string -> CustomDialogManager.Date)
  (page : list Element)
  (eventsAnswer deletionAnswer : Js.SettledResult Reply) (choice : Choice)
  (st : State) : option (State * list Ui) :=
  if isProcessing st then Some (st, [])
  else
    match getCurrentViewEvents page eventsAnswer (eventCache st) with
    | (Js.rejected error, cache) =>
        Some ({| eventCache := cache; isProcessing := false |},
              [AlertError (Js.message error)])
    | (Js.fulfilled [], cache) =>
        Some ({| eventCache := cache; isProcessing := false |}, [AlertNoEvents])
    | (Js.fulfilled events, cache) =>
        match dialog newDate choice events with
        | None => None
        | Some None => Some ({| eventCache := cache; isProcessing := false |}, [])
        | Some (Some eventIds) =>
            Some (performBulkDeletion deletionAnswer eventIds
                    {| eventCache := cache; isProcessing := false |})
        end
    end.

End Page.

End CalendarExtension.

(** ** Vocabulary of the properties of this part *)

Section ContentVocabulary.

Import CalendarExtension.

(** A string holds no space. *)
Definition spaceless (s : string) : bool :=
  JsText.allChars (fun c => negb (Ascii.eqb c " ")) s.

(** An event that can be deleted has both identifiers, and its calendar is
    no holiday calendar. *)
Definition reliable (event : Event.t) : Prop :=
  Event.canDelete event = true ->
  exists actualEventId calendarId,
    Event.actualEventId event = Some actualEventId
    /\ Event.calendarId event = Some calendarId
    /\ Js.includes "#holiday@" calendarId = false.

(** Every entry of the cache is stored under the [id] of its event and is
    reliable, and no key occurs twice. *)
Definition sound (cache : Cache) : Prop :=
  NoDup (JsMap.keys cache)
  /\ Forall (fun entry => Event.id (snd entry) = fst entry /\ reliable (snd entry))
            cache.

(** The elements selected by [[data-eventid]] under the added nodes. *)
Definition addedEvents (mutations : list (list Node)) : list Element :=
  flat_map (flat_map (fun node => match node with
                                  | ElementNode events => events
                                  | OtherNode => []
                                  end))
           mutations.

(** What the loop of [performBulkDeletion] makes of one identifier. *)
Definition sorted (cache : Cache) (domEventId : string)
  : list MessageRouter.Event.t * list NonDeletable :=
  sort cache ([], []) domEventId.

(** The caches the content script can hold: empty at first and after a
    navigation, then changed by the mutation observer, by the two halves of
    [getCurrentViewEvents] and by the end of [performBulkDeletion], in any
    order. *)
Inductive reachable (atob : string -> option string) (noEvents noResult : string)
  : Cache -> Prop :=
| reach_empty : reachable atob noEvents noResult JsMap.empty
| reach_mutations mutations cache :
    reachable atob noEvents noResult cache ->
    reachable atob noEvents noResult (handleCalendarChanges atob mutations cache)
| reach_page page cache events cache' :
    reachable atob noEvents noResult cache ->
    viewEventsNow atob page cache = Some (events, cache') ->
    reachable atob noEvents noResult cache'
| reach_answer answer cache :
    reachable atob noEvents noResult cache ->
    reachable atob noEvents noResult (snd (viewEventsAnswered noEvents answer cache))
| reach_conclude answer nonDeletableEvents cache :
    reachable atob noEvents noResult cache ->
    reachable atob noEvents noResult
      (fst (conclude noResult answer nonDeletableEvents cache)).

(** The lists of events [SendBulkDelete] is called with. *)
Definition sends (shown : list Ui) : list (list MessageRouter.Event.t) :=
  flat_map (fun ui => match ui with
                      | SendBulkDelete events => [events]
                      | _ => []
                      end)
           shown.

End ContentVocabulary.

(** ** Vocabulary of the further properties of the service worker *)

(** The readings of the clock at which a sequence of passes is granted. *)
Fixpoint grants (nows : list Z) (rl : RateLimiter.t) : list Z :=
  match nows with
  | [] => []
  | now :: later =>
      match RateLimiter.pass now rl with
      | RateLimiter.Granted rl' => now :: grants later rl'
      | RateLimiter.Suspended _ rl' => grants later rl'
      end
  end.

(** The grants among [earlier] that are less than [window] before [now]. *)
Definition recent (window now : Z) (earlier : list Z) : list Z :=
  filter (fun time => (now - time <? window)%Z) earlier.

(** Every grant of [times] found fewer than [limit] earlier grants in its
    window. *)
Definition paced (limit window : Z) (times : list Z) : Prop :=
  forall i time,
    nth_error times i = Some time ->
    (Z.of_nat (List.length (recent window time (firstn i times))) < limit)%Z.

(** The positions dispatched, and those recorded, in the order of the
    trace. *)
Definition dispatches (trace : list MessageRouter.Trace) : list nat :=
  flat_map (fun entry => match entry with
                         | MessageRouter.Dispatched k => [k]
                         | MessageRouter.Recorded _ => []
                         end)
           trace.

Definition records (trace : list MessageRouter.Trace) : list nat :=
  flat_map (fun entry => match entry with
                         | MessageRouter.Dispatched _ => []
                         | MessageRouter.Recorded k => [k]
                         end)
           trace.

(** ** Sample values *)

(** A date parser that knows one day and one morning of that day. *)
Definition mayDates (text : string) : CustomDialogManager.Date :=
  if String.eqb text "2024-05-01" then Some 1714521600000%Z
  else if String.eqb text "2024-05-01T00:00:00Z" then Some 1714521600000%Z
  else if String.eqb text "2024-05-01T09:00:00Z" then Some 1714554000000%Z
  else None.

Definition midnightEvent : CustomDialogManager.Event.t :=
  CustomDialogManager.Event.mk
    "bWlk" (Some "e2") (Some "primary") "Release"
    (Some "2024-05-01T00:00:00Z") None true.

Definition morningEvent : CustomDialogManager.Event.t :=
  CustomDialogManager.Event.mk
    "bW9y" (Some "e3") (Some "primary") "Stand-up"
    (Some "2024-05-01T09:00:00Z") None true.

(** A page with a holiday, a meeting and an element that does not parse. *)

(** [atob] on the three identifiers of the page; it throws elsewhere. *)
Definition pageAtob (encoded : string) : option string :=
  if String.eqb encoded
       "MjAyNTA5MDFfOXUycG91OWo4NTV1amZwOGw0Z3FzcXBidjQgZW4udXNhI2hvbGlkYXlAZ3JvdXAudi5jYWxlbmRhci5nb29nbGUuY29t"
  then Some "20250901_9u2pou9j855ujfp8l4gqsqpbv4 en.usa#holiday@group.v.calendar.google.com"
  else if String.eqb encoded "MjAyNTA5MDJfN2drMm0xIGRhbmFAZXhhbXBsZS5jb20="
  then Some "20250902_7gk2m1 dana@example.com"
  else if String.eqb encoded "b3JwaGFu" then Some "orphan"
  else None.

Definition holidayElement : CalendarExtension.Element :=
  CalendarExtension.mkElement
    "MjAyNTA5MDFfOXUycG91OWo4NTV1amZwOGw0Z3FzcXBidjQgZW4udXNhI2hvbGlkYXlAZ3JvdXAudi5jYWxlbmRhci5nb29nbGUuY29t"
    "Labor Day" None None None None.

Definition meetingElement : CalendarExtension.Element :=
  CalendarExtension.mkElement
    "MjAyNTA5MDJfN2drMm0xIGRhbmFAZXhhbXBsZS5jb20="
    "  Team sync " (Some "2024-05-01T09:00:00Z") None None None.

Definition orphanElement : CalendarExtension.Element :=
  CalendarExtension.mkElement "b3JwaGFu" "" None None None None.

Definition pageCache : CalendarExtension.Cache :=
  CalendarExtension.handleCalendarChanges pageAtob
    [[CalendarExtension.OtherNode;
      CalendarExtension.ElementNode [holidayElement; meetingElement]];
     [CalendarExtension.ElementNode [orphanElement; meetingElement]]]
    JsMap.empty.

Definition pageIds : list string :=
  [CalendarExtension.dataEventid meetingElement;
   CalendarExtension.dataEventid holidayElement;
   "bm90IGNhY2hlZA=="].

Definition meeting : MessageRouter.Event.t :=
  MessageRouter.Event.mk (CalendarExtension.dataEventid meetingElement)
    "7gk2m1" "dana@example.com" "Team sync".


(** * Properties *)

(** ** JavaScript strings *)

Section StringFacts.

Lemma prefix_spec (needle hay : string) :
  String.prefix needle hay = true <-> exists after, hay = (needle ++ after)%string.
Proof.
  revert hay. induction needle as [|c needle IH]; intros [|d hay]; simpl.
  - split; [intros _; now exists ""|reflexivity].
  - split; [intros _; now exists (String d hay)|reflexivity].
  - split; [discriminate|intros [after [=]]].
  - destruct (ascii_dec c d) as [->|Hne].
    + rewrite IH. split; intros [after H]; exists after; [now rewrite H|].
      now injection H.
    + split; [discriminate|]. intros [after [= Hcd _]]. congruence.
Qed.

(** [includes] is true exactly when the needle occurs in the haystack. *)
Lemma includes_spec (needle hay : string) :
  Js.includes needle hay = true <->
  exists before after, hay = (before ++ needle ++ after)%string.
Proof.
  induction hay as [|d hay IH]; cbn [Js.includes];
    rewrite orb_true_iff, prefix_spec.
  - split.
    + intros [[after H]|H]; [|discriminate]. now exists "", after.
    + intros (before & after & H). left. exists after.
      destruct before; [exact H|discriminate].
  - rewrite IH. split.
    + intros [[after H]|(before & after & H)].
      * now exists "", after.
      * exists (String d before), after. simpl. now rewrite H.
    + intros (before & after & H). destruct before as [|b before].
      * left. now exists after.
      * right. exists before, after. simpl in H. now injection H.
Qed.

End StringFacts.



(** ** RateLimiter *)

Section RateLimiterFacts.

Import RateLimiter.

Lemma filter_length_le {A : Type} (f : A -> bool) (l : list A) :
  (List.length (filter f l) <= List.length l)%nat.
Proof.
  induction l as [|x l IH]; simpl; [lia|].
  destruct (f x); simpl; lia.
Qed.


Lemma prune_maxRequests now rl : maxRequests (prune now rl) = maxRequests rl.
Proof. reflexivity. Qed.

Lemma prune_windowMs now rl : windowMs (prune now rl) = windowMs rl.
Proof. reflexivity. Qed.

Lemma prune_bounded now rl : bounded rl -> bounded (prune now rl).
Proof.
  unfold bounded. simpl. intros H.
  pose proof (filter_length_le (fun time => (now - time <? windowMs rl)%Z) (requests rl)).
  lia.
Qed.

Lemma pass_cases now rl :
  (pass now rl = Suspended
     (match Js.mathMin (requests (prune now rl)) with
      | Some oldestRequest => Some (windowMs rl - (now - oldestRequest))%Z
      | None => None
      end) (prune now rl)
   /\ (maxRequests rl <= Z.of_nat (List.length (requests (prune now rl))))%Z)
  \/ (pass now rl = Granted (mk (maxRequests rl) (windowMs rl)
                                (requests (prune now rl) ++ [now]))
      /\ (Z.of_nat (List.length (requests (prune now rl))) < maxRequests rl)%Z).
Proof.
  unfold pass. rewrite prune_maxRequests, prune_windowMs.
  destruct (Z.leb_spec (maxRequests rl)
              (Z.of_nat (List.length (requests (prune now rl))))); [left|right];
    split; auto.
Qed.

Lemma pass_bounded now rl : bounded rl -> bounded (afterPass (pass now rl)).
Proof.
  intros Hb. destruct (pass_cases now rl) as [[-> _]|[-> Hlt]]; simpl.
  - now apply prune_bounded.
  - unfold bounded. simpl in *. rewrite length_app. simpl. lia.
Qed.

Lemma pass_maxRequests now rl : maxRequests (afterPass (pass now rl)) = maxRequests rl.
Proof. destruct (pass_cases now rl) as [[-> _]|[-> _]]; reflexivity. Qed.

Lemma acquire_bounded clock : forall rl rl',
  bounded rl -> acquire clock rl = Some rl' ->
  bounded rl' /\ maxRequests rl' = maxRequests rl.
Proof.
  induction clock as [|now later IH]; simpl; intros rl rl' Hb Hacq; [discriminate|].
  pose proof (pass_bounded now rl Hb) as Hb'.
  pose proof (pass_maxRequests now rl) as Hm.
  destruct (pass now rl) as [granted|w suspended]; simpl in *.
  - injection Hacq as <-. auto.
  - destruct (IH _ _ Hb' Hacq) as [H1 H2]. split; [auto|congruence].
Qed.

Lemma acquireAll_bounded clocks : forall rl rl',
  bounded rl -> acquireAll clocks rl = Some rl' ->
  bounded rl' /\ maxRequests rl' = maxRequests rl.
Proof.
  induction clocks as [|clock others IH]; simpl; intros rl rl' Hb Hall.
  - injection Hall as <-. auto.
  - destruct (acquire clock rl) as [rl1|] eqn:Hacq; [|discriminate].
    destruct (acquire_bounded _ _ _ Hb Hacq) as [Hb1 Hm1].
    destruct (IH _ _ Hb1 Hall) as [H1 H2]. split; [auto|congruence].
Qed.

Lemma passes_bounded nows : forall rl,
  bounded rl -> bounded (passes nows rl) /\ maxRequests (passes nows rl) = maxRequests rl.
Proof.
  unfold passes.
  induction nows as [|now later IH]; simpl; intros rl Hb; [auto|].
  destruct (IH _ (pass_bounded now rl Hb)) as [H1 H2].
  split; [auto|]. rewrite H2. apply pass_maxRequests.
Qed.

Lemma create_bounded maxRequests windowMs :
  (1 <= maxRequests)%Z -> bounded (create maxRequests windowMs).
Proof. unfold bounded. simpl. lia. Qed.

Lemma fold_min_le (l : list Z) : forall x, (fold_left Z.min l x <= x)%Z.
Proof.
  induction l as [|y l IH]; simpl; intros x; [lia|].
  specialize (IH (Z.min x y)). lia.
Qed.

Lemma fold_min_In (l : list Z) : forall x,
  fold_left Z.min l x = x \/ In (fold_left Z.min l x) l.
Proof.
  induction l as [|y l IH]; simpl; intros x; [auto|].
  destruct (IH (Z.min x y)) as [H|H]; [|auto].
  rewrite H. destruct (Z.min_spec x y) as [[_ ->]|[_ ->]]; auto.
Qed.

Lemma mathMin_In (l : list Z) (m : Z) : Js.mathMin l = Some m -> In m l.
Proof.
  destruct l as [|x l]; simpl; [discriminate|].
  intros [= <-]. destruct (fold_min_In l x) as [->|H]; auto.
Qed.


End RateLimiterFacts.

(** C8: after every successful return of [acquire], whatever the sequence of
    calls and their clocks, and after every atomic pass of interleaved
    callers, a limiter created with [maxRequests >= 1] holds at most
    [maxRequests] timestamps, also after any further pruning. *)
Theorem acquire_keeps_at_most_maxRequests
  (maxRequests windowMs : Z) (clocks : list (list Z)) (nows : list Z)
  (rl : RateLimiter.t) :
  (1 <= maxRequests)%Z ->
  RateLimiter.acquireAll clocks (RateLimiter.create maxRequests windowMs) = Some rl ->
  (Z.of_nat (List.length (RateLimiter.requests rl)) <= maxRequests)%Z
  /\ (forall now,
        (Z.of_nat (List.length (RateLimiter.requests (RateLimiter.prune now rl)))
         <= maxRequests)%Z)
  /\ (Z.of_nat (List.length (RateLimiter.requests
                   (passes nows (RateLimiter.create maxRequests windowMs))))
      <= maxRequests)%Z.
Proof.
  intros Hmax Hall.
  pose proof (create_bounded maxRequests windowMs Hmax) as Hb0.
  destruct (acquireAll_bounded _ _ _ Hb0 Hall) as [Hb Hm]. simpl in Hm.
  destruct (passes_bounded nows _ Hb0) as [Hp Hpm]. simpl in Hpm.
  unfold bounded in *. rewrite Hm in Hb. rewrite Hpm in Hp.
  repeat split; auto.
  intros now. pose proof (prune_bounded now rl) as Hpr. unfold bounded in Hpr.
  rewrite prune_maxRequests, Hm in Hpr. apply Hpr. lia.
Qed.

Lemma acquire_keeps_at_most_maxRequests_witness :
  exists rl,
    RateLimiter.acquireAll [[0]; [1]; [2; 1000]; [1003]]%Z (RateLimiter.create 2 1000)
      = Some rl
    /\ RateLimiter.requests rl = [1000; 1003]%Z
    /\ (Z.of_nat (List.length (RateLimiter.requests rl)) <= 2)%Z.
Proof.
  eexists. split; [reflexivity|]. split; [reflexivity|].
  apply (acquire_keeps_at_most_maxRequests 2 1000
           [[0]; [1]; [2; 1000]; [1003]]%Z [0; 0; 0]%Z).
  - lia.
  - reflexivity.
Defined.

(** ** deleteEvent and the classification of its failures *)

Section DeleteEventFacts.

Import MessageRouter.

(** After a [401] the body is entered again, whatever came before. *)
Lemma deleteEvent_unauthorized token later calendarId eventId :
  deleteEvent (unauthorized token :: later) calendarId eventId
  = (fst (deleteEvent later calendarId eventId),
     retryActions calendarId eventId token
       ++ snd (deleteEvent later calendarId eventId)).
Proof.
  simpl. destruct (deleteEvent later calendarId eventId). reflexivity.
Qed.

(** One [401]: the token is removed from the cache and the request is sent
    again with the token of the second round. *)
Lemma deleteEvent_refreshes_after_one_401 calendarId eventId :
  deleteEvent [unauthorized "stale"; answered "fresh" true 204 "No Content"]
    calendarId eventId
  = (Some (Js.fulfilled eventId),
     [GetValidToken; FetchDelete calendarId eventId "stale";
      RemoveCachedAuthToken "stale";
      GetValidToken; FetchDelete calendarId eventId "fresh"]).
Proof. reflexivity. Qed.

(** Any number of [401] answers in a row is retried. *)
Lemma deleteEvent_retries_every_401 tokens later calendarId eventId :
  deleteEvent (map unauthorized tokens ++ later) calendarId eventId
  = (fst (deleteEvent later calendarId eventId),
     flat_map (retryActions calendarId eventId) tokens
       ++ snd (deleteEvent later calendarId eventId)).
Proof.
  induction tokens as [|token tokens IH].
  - simpl. destruct (deleteEvent later calendarId eventId). reflexivity.
  - cbn [map app flat_map]. rewrite deleteEvent_unauthorized, IH.
    cbn [fst snd]. now rewrite <- app_assoc.
Qed.

(** X21: while the service keeps answering [401] the promise stays
    pending. *)
Lemma deleteEvent_pending_on_401 tokens calendarId eventId :
  fst (deleteEvent (map unauthorized tokens) calendarId eventId) = None.
Proof.
  rewrite <- (app_nil_r (map unauthorized tokens)).
  now rewrite deleteEvent_retries_every_401.
Qed.

(** No error thrown by [deleteEvent] carries a [status]. *)
Lemma deleteEvent_reason_without_status script calendarId eventId :
  forall reason actions,
    deleteEvent script calendarId eventId = (Some (Js.rejected reason), actions) ->
    Js.status reason = None.
Proof.
  induction script as [|round later IH]; simpl; intros reason actions H;
    [discriminate|].
  destruct (tokenResult round); [|now inversion H].
  destruct (fetchResult round) as [response|msg]; [|now inversion H].
  destruct (Response.ok response); simpl in H; [discriminate|].
  destruct (Response.status response =? 401)%Z.
  - destruct (deleteEvent later calendarId eventId) as [result acts].
    inversion H; subst. eapply IH; reflexivity.
  - now inversion H.
Qed.

(** X20: the status codes never decide how a failed deletion is
    classified. *)
Lemma deleteEvent_reason_classified_by_message script calendarId eventId :
  forall reason actions,
    deleteEvent script calendarId eventId = (Some (Js.rejected reason), actions) ->
    isRetryableError reason
    = Js.includes "network" (Js.message reason)
      || Js.includes "timeout" (Js.message reason).
Proof.
  intros reason actions H. unfold isRetryableError.
  now rewrite (deleteEvent_reason_without_status _ _ _ _ _ H).
Qed.

(** [isRetryableError] on an error object: the status is one of the five
    codes, or the message includes "network" or "timeout". *)
Lemma isRetryableError_spec (error : Js.Error) :
  isRetryableError error = true <->
  (exists code, Js.status error = Some code /\ In code [429; 500; 502; 503; 504]%Z)
  \/ Js.includes "network" (Js.message error) = true
  \/ Js.includes "timeout" (Js.message error) = true.
Proof.
  unfold isRetryableError, codesInclude, retryableCodes.
  rewrite !orb_true_iff. split.
  - intros [[H|H]|H]; auto. left.
    destruct (Js.status error) as [code|]; [|discriminate].
    exists code. split; [reflexivity|].
    apply existsb_exists in H. destruct H as [x [Hin Heq]].
    apply Z.eqb_eq in Heq. now subst.
  - intros [[code [-> Hin]]|[H|H]]; auto. left. left.
    apply existsb_exists. exists code. split; [exact Hin|apply Z.eqb_refl].
Qed.

End DeleteEventFacts.

(** C2 (the code at a deletion rejected with status 429): [deleteEvent]
    throws [new Error("HTTP 429: Too Many Requests")], which has no
    [status], and the run reports the event with [retryable: false]. *)
Theorem rate_limited_deletion_is_reported_not_retryable :
  exists reason,
    MessageRouter.deleteEvent
      [answered "token" false 429 "Too Many Requests"] "primary" "e1"
    = (Some (Js.rejected reason),
       [GetValidToken; FetchDelete "primary" "e1" "token"])
    /\ reason = Js.newError "HTTP 429: Too Many Requests"
    /\ MessageRouter.isRetryableError reason = false
    /\ option_map MessageRouter.results
         (MessageRouter.performBulkDeletion
            (MessageRouter.mkEnv (fun _ => Js.rejected reason) (fun _ => None)
               (fun _ => [0%Z]))
            [MessageRouter.Event.mk "dom1" "e1" "primary" "Stand-up"])
       = Some {| MessageRouter.Results.successful := [];
                 MessageRouter.Results.failed :=
                   [{| MessageRouter.Failure.domEventId := "dom1";
                       MessageRouter.Failure.actualEventId := "e1";
                       MessageRouter.Failure.title := "Stand-up";
                       MessageRouter.Failure.error := "HTTP 429: Too Many Requests";
                       MessageRouter.Failure.retryable := false |}] |}.
Proof.
  eexists. split; [reflexivity|]. repeat split.
Qed.

(** C3 (the code at two [401] answers in a row): the second [401] is not
    propagated; the credential is invalidated again and a third request is
    sent, whose answer settles the call. *)
Theorem deleteEvent_retries_after_second_401 :
  MessageRouter.deleteEvent
    [unauthorized "t1"; unauthorized "t2"; answered "t3" true 204 "No Content"]
    "primary" "e1"
  = (Some (Js.fulfilled "e1"),
     [GetValidToken; FetchDelete "primary" "e1" "t1"; RemoveCachedAuthToken "t1";
      GetValidToken; FetchDelete "primary" "e1" "t2"; RemoveCachedAuthToken "t2";
      GetValidToken; FetchDelete "primary" "e1" "t3"]).
Proof. reflexivity. Qed.

(** ** The bulk deletion run *)

Section EngineFacts.

Import MessageRouter.

Lemma successes_app vs ws : successes (vs ++ ws) = successes vs ++ successes ws.
Proof.
  induction vs as [|[s|f] vs IH]; simpl; [reflexivity|now rewrite IH|exact IH].
Qed.

Lemma failures_app vs ws : failures (vs ++ ws) = failures vs ++ failures ws.
Proof.
  induction vs as [|[s|f] vs IH]; simpl; [reflexivity|exact IH|now rewrite IH].
Qed.

Lemma successes_failures_length vs :
  (List.length (successes vs) + List.length (failures vs) = List.length vs)%nat.
Proof. induction vs as [|[s|f] vs IH]; simpl; lia. Qed.

Lemma indexed_cons {A : Type} start (x : A) l :
  indexed start (x :: l) = (start, x) :: indexed (S start) l.
Proof. reflexivity. Qed.

Lemma indexed_length {A : Type} start (l : list A) :
  List.length (indexed start l) = List.length l.
Proof.
  unfold indexed. rewrite length_combine, length_seq. apply Nat.min_id.
Qed.

Lemma indexed_fst {A : Type} (l : list A) : forall start,
  map fst (indexed start l) = seq start (List.length l).
Proof.
  induction l as [|x l IH]; intros start; [reflexivity|].
  rewrite indexed_cons. simpl. now rewrite IH.
Qed.

Lemma indexed_snd {A : Type} (l : list A) : forall start,
  map snd (indexed start l) = l.
Proof.
  induction l as [|x l IH]; intros start; [reflexivity|].
  rewrite indexed_cons. simpl. now rewrite IH.
Qed.

Lemma indexed_app {A : Type} (l l' : list A) : forall start,
  indexed start (l ++ l')
  = indexed start l ++ indexed (start + List.length l) l'.
Proof.
  induction l as [|x l IH]; intros start.
  - simpl. now rewrite Nat.add_0_r.
  - rewrite <- app_comm_cons, !indexed_cons, IH. simpl.
    now rewrite Nat.add_succ_r.
Qed.

Lemma indexed_In {A : Type} (l : list A) : forall start k x,
  In (k, x) (indexed start l) <->
  (start <= k)%nat /\ nth_error l (k - start) = Some x.
Proof.
  induction l as [|y l IH]; intros start k x.
  - simpl. split; [tauto|]. intros [_ H]. destruct (k - start)%nat; discriminate.
  - rewrite indexed_cons. simpl. rewrite IH. split.
    + intros [[= <- <-]|[Hle Hnth]].
      * rewrite Nat.sub_diag. auto.
      * split; [lia|]. replace (k - start)%nat with (S (k - S start)) by lia.
        exact Hnth.
    + intros [Hle Hnth]. destruct (k - start)%nat as [|d] eqn:Hd.
      * left. injection Hnth as <-. f_equal. lia.
      * right. split; [lia|]. replace (k - S start)%nat with d by lia.
        exact Hnth.
Qed.

Lemma indexed_shift {A B : Type} (F : nat -> A -> B) (i : nat) (l : list A) :
  forall m,
    map (fun e => F (i + fst e)%nat (snd e)) (indexed m l)
    = map (fun e => F (fst e) (snd e)) (indexed (i + m) l).
Proof.
  induction l as [|x l IH]; intros m; [reflexivity|].
  rewrite !indexed_cons. simpl. rewrite IH. now rewrite Nat.add_succ_r.
Qed.

Lemma fold_left_map {A B C : Type} (g : C -> B -> C) (h : A -> B) (l : list A) :
  forall c, fold_left g (map h l) c = fold_left (fun s x => g s (h x)) l c.
Proof. induction l as [|x l IH]; intros c; simpl; [reflexivity|apply IH]. Qed.

Lemma fold_left_ext {A C : Type} (f g : C -> A -> C) (l : list A) :
  (forall s x, f s x = g s x) ->
  forall c, fold_left f l c = fold_left g l c.
Proof.
  intros Hfg. induction l as [|x l IH]; intros c; simpl; [reflexivity|].
  now rewrite Hfg, IH.
Qed.

Lemma fold_record kvs : forall st,
  fold_left record kvs st
  = {| results :=
         {| Results.successful :=
              Results.successful (results st) ++ successes (map snd kvs);
            Results.failed :=
              Results.failed (results st) ++ failures (map snd kvs) |};
       rateLimiter := rateLimiter st;
       trace := trace st ++ map Recorded (map fst kvs) |}.
Proof.
  induction kvs as [|[k v] kvs IH]; intros [[ok ko] rl tr].
  - simpl. now rewrite !app_nil_r.
  - cbn [fold_left]. rewrite IH. unfold record, pushSuccessful, pushFailed.
    destruct v as [s|f]; simpl; now rewrite <- !app_assoc.
Qed.

Variable env : Env.

Lemma classify_record i batch st index event :
  nth_error batch index = Some event ->
  classify i batch st (index, attempt env (i + index) event)
  = record st ((i + index)%nat, settle env (i + index) event).
Proof.
  intros H. unfold classify, attempt, settle, record. rewrite H.
  destruct (deleteOutcome env (i + index)); reflexivity.
Qed.

Lemma fold_classify i suffix : forall done st,
  fold_left (classify i (done ++ suffix))
    (indexed (List.length done)
       (map (fun entry => attempt env (i + fst entry) (snd entry))
            (indexed (List.length done) suffix)))
    st
  = fold_left record
      (map (fun entry => ((i + fst entry)%nat, settle env (i + fst entry) (snd entry)))
           (indexed (List.length done) suffix))
      st.
Proof.
  induction suffix as [|event suffix IH]; intros done st; [reflexivity|].
  rewrite indexed_cons. cbn [map fst snd]. rewrite indexed_cons.
  cbn [fold_left]. rewrite classify_record.
  - specialize (IH (done ++ [event])).
    rewrite <- app_assoc, length_app, Nat.add_1_r in IH. apply IH.
  - rewrite nth_error_app2, Nat.sub_diag by lia. reflexivity.
Qed.

Lemma processBatch_record i batch st :
  processBatch env i batch st
  = fold_left record
      (map (fun entry => (fst entry, verdict env i (fst entry) (snd entry)))
           (indexed i batch))
      {| results := results st;
         rateLimiter := passes (acquirePasses env i) (rateLimiter st);
         trace := trace st ++ map Dispatched (seq i (List.length batch)) |}.
Proof.
  unfold processBatch, verdict.
  destruct (orchestrationFault env i) as [batchError|].
  - rewrite fold_left_map. apply fold_left_ext. now intros s [k event].
  - pose proof (fold_classify i batch []) as H. simpl in H. rewrite H.
    rewrite (indexed_shift (fun k e => (k, settle env k e)) i batch 0).
    now rewrite Nat.add_0_r.
Qed.

Lemma processBatch_spec i batch st :
  processBatch env i batch st
  = {| results :=
         {| Results.successful :=
              Results.successful (results st)
                ++ successes (map (fun entry => verdict env i (fst entry) (snd entry))
                                  (indexed i batch));
            Results.failed :=
              Results.failed (results st)
                ++ failures (map (fun entry => verdict env i (fst entry) (snd entry))
                                 (indexed i batch)) |};
       rateLimiter := passes (acquirePasses env i) (rateLimiter st);
       trace := trace st ++ chunkTrace (indexed i batch) |}.
Proof.
  rewrite processBatch_record, fold_record. cbn [results trace rateLimiter].
  rewrite (map_map _ snd), (map_map _ fst). cbn [fst snd].
  unfold chunkTrace. rewrite <- app_assoc.
  change (map (fun x : nat * Event.t => fst x) (indexed i batch))
    with (map fst (indexed i batch)).
  now rewrite indexed_fst.
Qed.


Lemma seq_StronglySorted len : forall start,
  StronglySorted lt (seq start len).
Proof.
  induction len as [|len IH]; intros start; simpl; constructor; [apply IH|].
  apply Forall_forall. intros k Hk. apply in_seq in Hk. lia.
Qed.


Lemma indexed_firstn {A : Type} (n : nat) : forall start (l : list A),
  firstn n (indexed start l) = indexed start (firstn n l).
Proof.
  induction n as [|n IH]; intros start [|x l]; try reflexivity.
  rewrite indexed_cons. cbn [firstn]. now rewrite IH, indexed_cons.
Qed.

Lemma indexed_skipn {A : Type} (n : nat) : forall start (l : list A),
  skipn n (indexed start l) = indexed (start + n) (skipn n l).
Proof.
  induction n as [|n IH]; intros start l.
  - simpl. now rewrite Nat.add_0_r.
  - destruct l as [|x l]; [reflexivity|].
    rewrite indexed_cons. cbn [skipn]. now rewrite IH, Nat.add_succ_r.
Qed.

Lemma Chunks_concat {A : Type} size (l : list A) parts :
  Chunks size l parts -> List.concat parts = l.
Proof.
  induction 1 as [|l parts Hne Hrest IH]; [reflexivity|].
  simpl. rewrite IH. apply firstn_skipn.
Qed.

Lemma ceil_div_step n s :
  (0 < n)%nat -> (0 < s)%nat ->
  S ((n - s + s - 1) / s) = ((n + s - 1) / s)%nat.
Proof.
  intros Hn Hs. destruct (Nat.le_gt_cases s n) as [Hle|Hgt].
  - replace (n - s + s - 1)%nat with (n - 1)%nat by lia.
    replace (n + s - 1)%nat with (n - 1 + 1 * s)%nat by lia.
    rewrite Nat.div_add by lia. lia.
  - replace (n - s + s - 1)%nat with (s - 1)%nat by lia.
    rewrite Nat.div_small by lia.
    apply Nat.div_unique with (r := (n - 1)%nat); lia.
Qed.

Lemma Chunks_length {A : Type} size (l : list A) parts :
  (0 < size)%nat -> Chunks size l parts ->
  List.length parts = ((List.length l + size - 1) / size)%nat.
Proof.
  intros Hs. induction 1 as [|l parts Hne Hrest IH].
  - simpl. rewrite Nat.div_small; lia.
  - simpl. rewrite IH, length_skipn. apply ceil_div_step; [|exact Hs].
    destruct l; [congruence|simpl; lia].
Qed.

Lemma Chunks_sizes {A : Type} size (l : list A) parts :
  (0 < size)%nat -> Chunks size l parts ->
  Forall (fun part => (0 < List.length part <= size)%nat) parts.
Proof.
  intros Hs. induction 1 as [|l parts Hne Hrest IH]; constructor; [|exact IH].
  rewrite length_firstn. destruct l; [congruence|simpl; lia].
Qed.

Lemma Chunks_full {A : Type} size (l : list A) parts :
  Chunks size l parts ->
  forall j part,
    nth_error parts j = Some part -> (S j < List.length parts)%nat ->
    List.length part = size.
Proof.
  induction 1 as [|l parts Hne Hrest IH]; intros j part Hnth Hlast.
  - destruct j; discriminate.
  - destruct j as [|j]; simpl in *.
    + injection Hnth as <-. rewrite length_firstn.
      inversion Hrest as [Hnil|l' parts' Hne' _ Hl']; subst; simpl in Hlast; [lia|].
      assert (List.length (skipn size l) <> 0)%nat
        by (destruct (skipn size l); [congruence|simpl; lia]).
      rewrite length_skipn in *. lia.
    + apply (IH j); [exact Hnth|lia].
Qed.

Variable size : nat.
Hypothesis size_positive : (0 < size)%nat.

Lemma chunkStart_within i k :
  (i mod size = 0)%nat -> (i <= k < i + size)%nat -> chunkStart size k = i.
Proof.
  intros Hi Hk. unfold chunkStart.
  assert (Hq : (i = size * (i / size))%nat) by (now apply Nat.Div0.div_exact).
  assert (Hd : (i / size = k / size)%nat).
  { apply Nat.div_unique with (r := (k - i)%nat); lia. }
  rewrite <- Hd. lia.
Qed.

Lemma verdictAt_in_chunk i (batch : list Event.t) :
  (i mod size = 0)%nat -> (List.length batch <= size)%nat ->
  map (verdictAt size env) (indexed i batch)
  = map (fun entry => verdict env i (fst entry) (snd entry)) (indexed i batch).
Proof.
  intros Hi Hlen. apply map_ext_in. intros [k event] Hin.
  apply indexed_In in Hin. destruct Hin as [Hle Hnth].
  unfold verdictAt. cbn [fst snd]. rewrite (chunkStart_within i k Hi); [reflexivity|].
  assert (k - i < List.length batch)%nat
    by (apply nth_error_Some; congruence).
  lia.
Qed.

Variable events : list Event.t.

Lemma bulkLoop_spec : forall fuel i st,
  (List.length events <= i + fuel)%nat -> (i mod size = 0)%nat ->
  exists st' parts,
    bulkLoop size env events fuel i st = Some st'
    /\ Results.successful (results st')
       = Results.successful (results st)
           ++ successes (map (verdictAt size env) (indexed i (skipn i events)))
    /\ Results.failed (results st')
       = Results.failed (results st)
           ++ failures (map (verdictAt size env) (indexed i (skipn i events)))
    /\ trace st' = trace st ++ flat_map chunkTrace parts
    /\ Chunks size (indexed i (skipn i events)) parts.
Proof.
  induction fuel as [|fuel IH]; intros i st Hfuel Hi; cbn [bulkLoop];
    destruct (Nat.leb_spec (List.length events) i) as [Hdone|Hmore];
    try lia.
  1, 2: exists st, []; rewrite skipn_all2 by exact Hdone; simpl;
        rewrite !app_nil_r; repeat split; constructor.
  unfold Js.slice. replace (i + size - i)%nat with size by lia.
  set (rest := skipn i events).
  destruct (IH (i + size)%nat (processBatch env i (firstn size rest) st))
    as (st' & parts & Hrun & Hok & Hko & Htr & Hparts); [lia| |].
  { rewrite <- (Nat.mul_1_l size) at 1. rewrite Nat.Div0.mod_add. exact Hi. }
  assert (Hsplit : indexed i rest
                   = indexed i (firstn size rest)
                       ++ indexed (i + size) (skipn (i + size) events)).
  { rewrite <- (firstn_skipn size (indexed i rest)) at 1.
    rewrite indexed_firstn, indexed_skipn. unfold rest.
    now rewrite skipn_skipn, (Nat.add_comm size i). }
  assert (Hlen : (List.length (firstn size rest) <= size)%nat)
    by (rewrite length_firstn; lia).
  exists st', (indexed i (firstn size rest) :: parts).
  rewrite processBatch_spec in Hok, Hko, Htr. cbn [results trace Results.successful Results.failed] in Hok, Hko, Htr.
  rewrite Hrun, Hok, Hko, Htr, Hsplit, !map_app, successes_app, failures_app.
  rewrite (verdictAt_in_chunk i _ Hi Hlen), <- !app_assoc.
  repeat split.
  rewrite <- Hsplit, <- indexed_firstn. constructor.
  - unfold rest, indexed. intros Hnil. apply (f_equal (@List.length _)) in Hnil.
    rewrite length_combine, length_seq, length_skipn in Hnil. simpl in Hnil. lia.
  - rewrite indexed_skipn. unfold rest.
    now rewrite skipn_skipn, (Nat.add_comm size i).
Qed.

(** The limiter of the run never holds more timestamps than it allows. *)
Lemma bulkLoop_limiter_bounded : forall fuel i st st',
  bounded (rateLimiter st) ->
  bulkLoop size env events fuel i st = Some st' ->
  bounded (rateLimiter st')
  /\ RateLimiter.maxRequests (rateLimiter st')
     = RateLimiter.maxRequests (rateLimiter st).
Proof.
  induction fuel as [|fuel IH]; intros i st st' Hb; cbn [bulkLoop];
    destruct (List.length events <=? i)%nat; intros Hrun;
    try discriminate; try (injection Hrun as <-; now split).
  apply IH in Hrun.
  - rewrite processBatch_spec in Hrun. cbn [rateLimiter] in Hrun.
    destruct Hrun as [Hb' Hmax]. split; [exact Hb'|].
    rewrite Hmax. now apply passes_bounded.
  - rewrite processBatch_spec. cbn [rateLimiter]. now apply passes_bounded.
Qed.

(** The run returns, and its report and trace have a closed form. *)
Lemma bulkDeletion_spec :
  exists st parts,
    bulkDeletion size env events = Some st
    /\ Results.successful (results st)
       = successes (map (verdictAt size env) (indexed 0 events))
    /\ Results.failed (results st)
       = failures (map (verdictAt size env) (indexed 0 events))
    /\ trace st = flat_map chunkTrace parts
    /\ Chunks size (indexed 0 events) parts.
Proof.
  destruct (bulkLoop_spec (List.length events) 0 emptyState)
    as (st & parts & Hrun & Hok & Hko & Htr & Hparts);
    [lia|apply Nat.Div0.mod_0_l|].
  exists st, parts. repeat split; assumption.
Qed.


Lemma indexed_split {A : Type} (n start : nat) (l : list A) :
  indexed start l
  = indexed start (firstn n l) ++ indexed (start + n) (skipn n l).
Proof.
  rewrite <- (firstn_skipn n (indexed start l)) at 1.
  now rewrite indexed_firstn, indexed_skipn.
Qed.

Lemma successes_In (s : Success.t) vs : In (inl s) vs -> In s (successes vs).
Proof.
  induction vs as [|[s'|f] vs IH]; simpl; [tauto| |].
  - intros [[= ->]|H]; auto.
  - intros [[=]|H]; auto.
Qed.

Lemma failures_In (f : Failure.t) vs : In (inr f) vs -> In f (failures vs).
Proof.
  induction vs as [|[s|f'] vs IH]; simpl; [tauto| |].
  - intros [[=]|H]; auto.
  - intros [[= ->]|H]; auto.
Qed.

Lemma failures_all_failed {A : Type} (g : A -> Failure.t) (l : list A) :
  failures (map (fun x => inr (g x)) l) = map g l.
Proof. induction l as [|x l IH]; simpl; [reflexivity|now rewrite IH]. Qed.

Lemma verdict_about i k event : about event (verdict env i k event).
Proof.
  unfold verdict, settle.
  destruct (orchestrationFault env i); [simpl; auto|].
  destruct (deleteOutcome env k); simpl; auto.
Qed.

Lemma verdicts_about (l : list Event.t) : forall start,
  Forall2 about l (map (verdictAt size env) (indexed start l)).
Proof.
  induction l as [|event l IH]; intros start; [constructor|].
  rewrite indexed_cons. constructor; [apply verdict_about|apply IH].
Qed.

(** The positions of the successes and of the failures among entries whose
    positions increase. *)
Lemma verdicts_in_order (f : nat * Event.t -> Verdict) (l : list (nat * Event.t)) :
  StronglySorted lt (map fst l) ->
  exists ps qs,
    StronglySorted lt ps /\ StronglySorted lt qs
    /\ incl ps (map fst l) /\ incl qs (map fst l)
    /\ Forall2 (fun p s => exists e, In (p, e) l /\ inl s = f (p, e))
               ps (successes (map f l))
    /\ Forall2 (fun q x => exists e, In (q, e) l /\ inr x = f (q, e))
               qs (failures (map f l)).
Proof.
  induction l as [|[k e] l IH]; intros Hsorted.
  - exists [], []. simpl. repeat split; try constructor; apply incl_nil_l.
  - simpl in Hsorted. apply StronglySorted_inv in Hsorted.
    destruct Hsorted as [Hsorted Hall].
    destruct (IH Hsorted) as (ps & qs & Hps & Hqs & Hips & Hiqs & Hs & Hf).
    assert (Hbelow : forall ns, incl ns (map fst l) -> Forall (lt k) ns).
    { intros ns Hns. apply Forall_forall. intros n Hn.
      rewrite Forall_forall in Hall. apply Hall, Hns, Hn. }
    apply (Forall2_impl
             (fun p s => exists e', In (p, e') ((k, e) :: l) /\ inl s = f (p, e')))
      in Hs; [|intros p s (e' & Hin & Heq); exists e'; split; [now right|exact Heq]].
    apply (Forall2_impl
             (fun q x => exists e', In (q, e') ((k, e) :: l) /\ inr x = f (q, e')))
      in Hf; [|intros q x (e' & Hin & Heq); exists e'; split; [now right|exact Heq]].
    cbn [map fst]. destruct (f (k, e)) as [s|x] eqn:Hfk; cbn [successes failures].
    + exists (k :: ps), qs. repeat split; auto.
      * constructor; auto.
      * apply incl_cons; [now left|now apply incl_tl].
      * now apply incl_tl.
      * constructor; [|exact Hs]. exists e. split; [now left|now rewrite Hfk].
    + exists ps, (k :: qs). repeat split; auto.
      * constructor; auto.
      * now apply incl_tl.
      * apply incl_cons; [now left|now apply incl_tl].
      * constructor; [|exact Hf]. exists e. split; [now left|now rewrite Hfk].
Qed.

Lemma trace_covers {A : Type} (parts : list (list (nat * A))) (k : nat) :
  In k (map fst (List.concat parts)) ->
  In (Dispatched k) (flat_map chunkTrace parts)
  /\ In (Recorded k) (flat_map chunkTrace parts).
Proof.
  intros Hk. apply in_map_iff in Hk. destruct Hk as ([k' x] & Hfst & Hin).
  simpl in Hfst. subst k'. apply in_concat in Hin.
  destruct Hin as (part & Hpart & Hin).
  assert (Hpos : In k (map fst part))
    by (apply in_map_iff; exists (k, x); auto).
  split; apply in_flat_map; exists part; (split; [exact Hpart|]);
    unfold chunkTrace; apply in_or_app; [left|right]; now apply in_map.
Qed.

End EngineFacts.

(** C1: the run returns a report in which every input event has exactly
    one verdict, a success entry on [successful] or a failure entry on
    [failed], so the two sequences together are as long as the input,
    whatever the outcomes of the deletions and the faults of the chunks. *)
Theorem report_places_every_event_once
  (env : MessageRouter.Env) (events : list MessageRouter.Event.t) :
  exists st verdicts,
    MessageRouter.performBulkDeletion env events = Some st
    /\ Forall2 about events verdicts
    /\ MessageRouter.Results.successful (MessageRouter.results st)
       = successes verdicts
    /\ MessageRouter.Results.failed (MessageRouter.results st)
       = failures verdicts
    /\ (List.length (MessageRouter.Results.successful (MessageRouter.results st))
        + List.length (MessageRouter.Results.failed (MessageRouter.results st))
        = List.length events)%nat.
Proof.
  destruct (bulkDeletion_spec env MessageRouter.batchSize) with (events := events)
    as (st & parts & Hrun & Hok & Hko & _); [unfold MessageRouter.batchSize; lia|].
  exists st, (map (verdictAt MessageRouter.batchSize env) (MessageRouter.indexed 0 events)).
  repeat split; [exact Hrun|apply verdicts_about|exact Hok|exact Hko|].
  rewrite Hok, Hko, successes_failures_length, length_map.
  apply indexed_length.
Qed.

(** X23: the limiter of [performBulkDeletion] holds at most ten timestamps
    when the run returns. *)
Lemma run_keeps_ten_timestamps
  (env : MessageRouter.Env) (events : list MessageRouter.Event.t)
  (st : MessageRouter.State) :
  MessageRouter.performBulkDeletion env events = Some st ->
  (List.length (RateLimiter.requests (MessageRouter.rateLimiter st)) <= 10)%nat.
Proof.
  intros Hrun.
  assert (Hstart : bounded (MessageRouter.rateLimiter MessageRouter.emptyState))
    by (apply create_bounded; lia).
  destruct (bulkLoop_limiter_bounded env MessageRouter.batchSize events
              _ _ _ _ Hstart Hrun) as [Hb Hmax].
  unfold bounded in Hb. rewrite Hmax in Hb. simpl in Hb. lia.
Qed.

(** C4: for every batch size [size > 0] the run cuts the input, in order,
    into [ceil(N / size)] consecutive chunks of at most [size] events, all
    full but possibly the last, and every event of a chunk is recorded
    before any event of the next chunk is dispatched. *)
Theorem run_proceeds_chunk_by_chunk
  (size : nat) (env : MessageRouter.Env) (events : list MessageRouter.Event.t) :
  (0 < size)%nat ->
  exists st parts,
    MessageRouter.bulkDeletion size env events = Some st
    /\ List.concat parts = MessageRouter.indexed 0 events
    /\ List.length parts = ((List.length events + size - 1) / size)%nat
    /\ Forall (fun part => (0 < List.length part <= size)%nat) parts
    /\ (forall j part,
          nth_error parts j = Some part -> (S j < List.length parts)%nat ->
          List.length part = size)
    /\ MessageRouter.trace st = flat_map chunkTrace parts.
Proof.
  intros Hsize.
  destruct (bulkDeletion_spec env size Hsize events)
    as (st & parts & Hrun & _ & _ & Htrace & Hparts).
  exists st, parts. repeat split.
  - exact Hrun.
  - now apply Chunks_concat with (size := size).
  - rewrite (Chunks_length _ _ _ Hsize Hparts). now rewrite indexed_length.
  - now apply Chunks_sizes with (l := MessageRouter.indexed 0 events).
  - now apply Chunks_full with (l := MessageRouter.indexed 0 events).
  - exact Htrace.
Qed.

(** C5: in a chunk that settles, the event at position [k] is reported by
    its own outcome alone: on [successful] when its deletion succeeded, on
    [failed] with the error of its own deletion when it failed, whatever
    happened to the other events of the chunk. *)
Theorem sibling_outcomes_are_independent
  (env : MessageRouter.Env) (events : list MessageRouter.Event.t)
  (k : nat) (event : MessageRouter.Event.t) :
  nth_error events k = Some event ->
  MessageRouter.orchestrationFault env (chunkStart MessageRouter.batchSize k) = None ->
  exists st,
    MessageRouter.performBulkDeletion env events = Some st
    /\ match MessageRouter.deleteOutcome env k with
       | Js.fulfilled _ =>
           In (successOf event)
              (MessageRouter.Results.successful (MessageRouter.results st))
       | Js.rejected reason =>
           In (failureOf event reason)
              (MessageRouter.Results.failed (MessageRouter.results st))
       end.
Proof.
  intros Hk Hfault.
  destruct (bulkDeletion_spec env MessageRouter.batchSize) with (events := events)
    as (st & parts & Hrun & Hok & Hko & _); [unfold MessageRouter.batchSize; lia|].
  exists st. split; [exact Hrun|].
  assert (Hin : In (verdictAt MessageRouter.batchSize env (k, event))
                   (map (verdictAt MessageRouter.batchSize env)
                        (MessageRouter.indexed 0 events))).
  { apply in_map, indexed_In. rewrite Nat.sub_0_r. split; [lia|exact Hk]. }
  assert (Hv : verdictAt MessageRouter.batchSize env (k, event) = settle env k event).
  { unfold verdictAt, verdict. cbn [fst snd]. now rewrite Hfault. }
  rewrite Hv in Hin. unfold settle in Hin. rewrite Hok, Hko.
  destruct (MessageRouter.deleteOutcome env k) as [value|reason].
  - now apply successes_In.
  - now apply failures_In.
Qed.

(** C6: when the chunk starting at [i] throws [batchError] before its
    settled results are available, the run still returns; the events of
    that chunk are on [failed], in a row, each with [retryable = true] and
    the message of [batchError]; and the run goes on: every event of the
    input, also of the later chunks, is dispatched and recorded. *)
Theorem chunk_fault_fails_the_chunk_and_the_run_goes_on
  (env : MessageRouter.Env) (events : list MessageRouter.Event.t)
  (i : nat) (batchError : Js.Error) :
  (i mod MessageRouter.batchSize = 0)%nat ->
  MessageRouter.orchestrationFault env i = Some batchError ->
  exists st before after,
    MessageRouter.performBulkDeletion env events = Some st
    /\ MessageRouter.Results.failed (MessageRouter.results st)
       = before
           ++ map (fun event => faultFailureOf event batchError)
                  (Js.slice i (i + MessageRouter.batchSize) events)
           ++ after
    /\ (forall event,
          In event (Js.slice i (i + MessageRouter.batchSize) events) ->
          MessageRouter.Failure.retryable (faultFailureOf event batchError) = true
          /\ MessageRouter.Failure.error (faultFailureOf event batchError)
             = Js.message batchError)
    /\ (forall k, (k < List.length events)%nat ->
          In (MessageRouter.Dispatched k) (MessageRouter.trace st)
          /\ In (MessageRouter.Recorded k) (MessageRouter.trace st))
    /\ (List.length (MessageRouter.Results.successful (MessageRouter.results st))
        + List.length (MessageRouter.Results.failed (MessageRouter.results st))
        = List.length events)%nat.
Proof.
  intros Hi Hfault.
  assert (Hsize : (0 < MessageRouter.batchSize)%nat)
    by (unfold MessageRouter.batchSize; lia).
  destruct (bulkDeletion_spec env MessageRouter.batchSize Hsize events)
    as (st & parts & Hrun & Hok & Hko & Htrace & Hparts).
  set (batch := Js.slice i (i + MessageRouter.batchSize) events).
  set (V := verdictAt MessageRouter.batchSize env) in *.
  exists st,
    (failures (map V (MessageRouter.indexed 0 (firstn i events)))),
    (failures (map V (MessageRouter.indexed (i + MessageRouter.batchSize)
                        (skipn MessageRouter.batchSize (skipn i events))))).
  split; [exact Hrun|]. split; [|split; [|split]].
  - rewrite Hko, (indexed_split i 0 events), Nat.add_0_l.
    rewrite (indexed_split MessageRouter.batchSize i (skipn i events)).
    rewrite !map_app, !failures_app. f_equal. f_equal.
    unfold V. rewrite verdictAt_in_chunk; [|exact Hsize|exact Hi|rewrite length_firstn; lia].
    unfold verdict. rewrite Hfault.
    rewrite (failures_all_failed (fun entry => faultFailureOf (snd entry) batchError)).
    rewrite <- (map_map snd (fun event => faultFailureOf event batchError)).
    rewrite indexed_snd. unfold batch, Js.slice.
    now replace (i + MessageRouter.batchSize - i)%nat with MessageRouter.batchSize by lia.
  - intros event _. split; reflexivity.
  - intros k Hk. rewrite Htrace. apply trace_covers.
    apply Chunks_concat in Hparts. rewrite Hparts, indexed_fst.
    apply in_seq. lia.
  - rewrite Hok, Hko, successes_failures_length, length_map.
    apply indexed_length.
Qed.

(** C10: [successful] lists its events in input order, and so does
    [failed]: the positions of the events behind the entries of each
    sequence increase strictly. *)
Theorem report_lists_events_in_input_order
  (env : MessageRouter.Env) (events : list MessageRouter.Event.t) :
  exists st ps qs,
    MessageRouter.performBulkDeletion env events = Some st
    /\ StronglySorted lt ps /\ StronglySorted lt qs
    /\ Forall2 (fun p s => exists event,
                  nth_error events p = Some event /\ s = successOf event)
               ps (MessageRouter.Results.successful (MessageRouter.results st))
    /\ Forall2 (fun q f => exists event,
                  nth_error events q = Some event /\ about event (inr f))
               qs (MessageRouter.Results.failed (MessageRouter.results st)).
Proof.
  destruct (bulkDeletion_spec env MessageRouter.batchSize) with (events := events)
    as (st & parts & Hrun & Hok & Hko & _); [unfold MessageRouter.batchSize; lia|].
  destruct (verdicts_in_order (verdictAt MessageRouter.batchSize env)
              (MessageRouter.indexed 0 events))
    as (ps & qs & Hps & Hqs & _ & _ & Hs & Hf).
  { rewrite indexed_fst. apply seq_StronglySorted. }
  exists st, ps, qs. rewrite Hok, Hko. repeat split; auto.
  - revert Hs. apply Forall2_impl. intros p s (event & Hin & Heq).
    exists event. apply indexed_In in Hin. rewrite Nat.sub_0_r in Hin.
    split; [tauto|].
    pose proof (verdict_about env (chunkStart MessageRouter.batchSize p) p event) as Habout.
    unfold verdictAt in Heq. cbn [fst snd] in Heq. now rewrite <- Heq in Habout.
  - revert Hf. apply Forall2_impl. intros q f (event & Hin & Heq).
    exists event. apply indexed_In in Hin. rewrite Nat.sub_0_r in Hin.
    split; [tauto|].
    pose proof (verdict_about env (chunkStart MessageRouter.batchSize q) q event) as Habout.
    unfold verdictAt in Heq. cbn [fst snd] in Heq. now rewrite <- Heq in Habout.
Qed.

Lemma run_proceeds_chunk_by_chunk_witness :
  exists st parts,
    MessageRouter.performBulkDeletion secondChunkThrows manyEvents = Some st
    /\ List.concat parts = MessageRouter.indexed 0 manyEvents
    /\ List.length parts = 3%nat
    /\ MessageRouter.trace st = flat_map chunkTrace parts.
Proof.
  assert (Hsize : (0 < MessageRouter.batchSize)%nat)
    by (unfold MessageRouter.batchSize; lia).
  destruct (run_proceeds_chunk_by_chunk MessageRouter.batchSize
              secondChunkThrows manyEvents Hsize)
    as (st & parts & Hrun & Hcat & Hlen & _ & _ & Htrace).
  exists st, parts. repeat split; assumption.
Defined.

Lemma sibling_outcomes_are_independent_witness :
  (exists st,
     MessageRouter.performBulkDeletion secondRefused threeEvents = Some st
     /\ In (successOf (sampleEvent "e1"))
           (MessageRouter.Results.successful (MessageRouter.results st)))
  /\ (exists st,
        MessageRouter.performBulkDeletion secondRefused threeEvents = Some st
        /\ In (failureOf (sampleEvent "e2") forbidden)
              (MessageRouter.Results.failed (MessageRouter.results st)))
  /\ (exists st,
        MessageRouter.performBulkDeletion secondRefused threeEvents = Some st
        /\ In (successOf (sampleEvent "e3"))
              (MessageRouter.Results.successful (MessageRouter.results st))).
Proof.
  split; [|split].
  - exact (sibling_outcomes_are_independent secondRefused threeEvents
             0 (sampleEvent "e1") eq_refl eq_refl).
  - exact (sibling_outcomes_are_independent secondRefused threeEvents
             1 (sampleEvent "e2") eq_refl eq_refl).
  - exact (sibling_outcomes_are_independent secondRefused threeEvents
             2 (sampleEvent "e3") eq_refl eq_refl).
Defined.

Lemma chunk_fault_fails_the_chunk_and_the_run_goes_on_witness :
  exists st before after,
    MessageRouter.performBulkDeletion secondChunkThrows manyEvents = Some st
    /\ MessageRouter.Results.failed (MessageRouter.results st)
       = before
           ++ map (fun event => faultFailureOf event engineFault)
                  (Js.slice 10 20 manyEvents)
           ++ after
    /\ In (MessageRouter.Dispatched 22) (MessageRouter.trace st)
    /\ In (MessageRouter.Recorded 22) (MessageRouter.trace st)
    /\ (List.length (MessageRouter.Results.successful (MessageRouter.results st))
        + List.length (MessageRouter.Results.failed (MessageRouter.results st))
        = 23)%nat.
Proof.
  destruct (chunk_fault_fails_the_chunk_and_the_run_goes_on
              secondChunkThrows manyEvents 10 engineFault eq_refl eq_refl)
    as (st & before & after & Hrun & Hfailed & _ & Hgoes & Hcount).
  exists st, before, after.
  split; [exact Hrun|]. split; [exact Hfailed|].
  split; [apply (Hgoes 22%nat); apply Nat.leb_le; reflexivity|].
  split; [apply (Hgoes 22%nat); apply Nat.leb_le; reflexivity|exact Hcount].
Defined.

(** ** The event filter *)

Section FilterFacts.

Import CustomDialogManager.

Lemma isWhiteSpace_lowerChar c : Js.isWhiteSpace (Js.lowerChar c) = Js.isWhiteSpace c.
Proof. destruct c as [[] [] [] [] [] [] [] []]; reflexivity. Qed.

Lemma trimStart_toLowerCase s :
  Js.trimStart (Js.toLowerCase s) = Js.toLowerCase (Js.trimStart s).
Proof.
  induction s as [|c s IH]; [reflexivity|].
  simpl. rewrite isWhiteSpace_lowerChar.
  destruct (Js.isWhiteSpace c); [exact IH|reflexivity].
Qed.

Lemma trimEnd_toLowerCase s :
  Js.trimEnd (Js.toLowerCase s) = Js.toLowerCase (Js.trimEnd s).
Proof.
  induction s as [|c s IH]; [reflexivity|].
  simpl. rewrite IH, isWhiteSpace_lowerChar.
  destruct (Js.trimEnd s); simpl; [|reflexivity].
  destruct (Js.isWhiteSpace c); reflexivity.
Qed.

(** Trimming and lower-casing commute. *)
Lemma trim_toLowerCase s : Js.trim (Js.toLowerCase s) = Js.toLowerCase (Js.trim s).
Proof. unfold Js.trim. now rewrite trimStart_toLowerCase, trimEnd_toLowerCase. Qed.

Lemma truthy_toLowerCase s : Js.truthy (Js.toLowerCase s) = Js.truthy s.
Proof. destruct s; reflexivity. Qed.

Lemma filter_idempotent {A : Type} (f : A -> bool) (l : list A) :
  filter f (filter f l) = filter f l.
Proof.
  induction l as [|x l IH]; [reflexivity|].
  simpl. destruct (f x) eqn:Hx; [|exact IH].
  simpl. now rewrite Hx, IH.
Qed.

Variable newDate : string -> Date.

(** The two date tests of the callback are the two bounds of the criteria. *)
Lemma date_tests (eventDate : Date) (fromValue toValue : string) :
  (if match dateOrNull newDate fromValue with
      | Some d => dateLt eventDate d
      | None => false
      end
   then false
   else if match dateOrNull newDate toValue with
           | Some d => dateGt eventDate d
           | None => false
           end
        then false else true)
  = Criteria.within Z.geb eventDate (Criteria.timestamp newDate fromValue)
    && Criteria.within Z.leb eventDate (Criteria.timestamp newDate toValue).
Proof.
  unfold dateOrNull, Criteria.timestamp, Criteria.within, dateLt, dateGt.
  destruct (Js.truthy fromValue), (Js.truthy toValue), eventDate as [t|];
    try destruct (newDate fromValue) as [from|];
    try destruct (newDate toValue) as [to|];
    try reflexivity;
    rewrite ?Z.geb_leb, ?(Z.leb_antisym t from), ?(Z.leb_antisym to t);
    repeat match goal with
           | |- context [(?a <? ?b)%Z] => destruct (a <? b)%Z
           end; reflexivity.
Qed.

(** The callback of the filter decides the rule with the trimmed keyword. *)
Lemma keeps_retainedTrimmed (inputs : Inputs) (event : Event.t) :
  keeps newDate (Js.trim (Js.toLowerCase (titleFilter inputs)))
        (dateOrNull newDate (dateFrom inputs))
        (dateOrNull newDate (dateTo inputs)) event
  = Criteria.retainedTrimmed newDate inputs event.
Proof.
  unfold keeps, Criteria.retainedTrimmed, Criteria.retainedWith,
    Criteria.trimmedKeyword, Criteria.containsIgnoringCase, Criteria.start.
  rewrite trim_toLowerCase, truthy_toLowerCase.
  destruct (Event.canDelete event); [|reflexivity]. cbn [negb andb].
  destruct (Js.truthy (Js.trim (titleFilter inputs))); cbn [andb].
  - destruct (Js.includes _ _); cbn [negb andb]; [|reflexivity].
    destruct (knownString (Event.startTime event)) as [s|];
      [apply date_tests|].
    unfold Criteria.within.
    destruct (Criteria.timestamp newDate (dateFrom inputs)),
      (Criteria.timestamp newDate (dateTo inputs)); reflexivity.
  - destruct (knownString (Event.startTime event)) as [s|];
      [apply date_tests|].
    unfold Criteria.within.
    destruct (Criteria.timestamp newDate (dateFrom inputs)),
      (Criteria.timestamp newDate (dateTo inputs)); reflexivity.
Qed.

(** The two rules agree on a keyword typed without white space around it. *)
Lemma retained_when_keyword_is_trimmed (inputs : Inputs) (event : Event.t) :
  Js.trim (titleFilter inputs) = titleFilter inputs ->
  Criteria.retained newDate inputs event
  = Criteria.retainedTrimmed newDate inputs event.
Proof.
  intros Htrim.
  unfold Criteria.retained, Criteria.retainedTrimmed, Criteria.titleKeyword,
    Criteria.trimmedKeyword.
  now rewrite Htrim.
Qed.

End FilterFacts.

(** C7, amended: the filter retains an event iff it can be deleted, and the
    keyword is empty once trimmed or the title contains the trimmed keyword,
    letter case ignored, and the start is not before the from date and not
    after the to date, each bound counting only when it is given and the
    start is known. *)
Theorem filter_retains_by_the_trimmed_keyword
  (newDate : string -> CustomDialogManager.Date)
  (inputs : CustomDialogManager.Inputs)
  (allEvents : list CustomDialogManager.Event.t)
  (event : CustomDialogManager.Event.t) :
  In event (CustomDialogManager.updateFilteredEvents newDate inputs allEvents)
  <-> In event allEvents /\ Criteria.retainedTrimmed newDate inputs event = true.
Proof.
  unfold CustomDialogManager.updateFilteredEvents.
  rewrite filter_In, keeps_retainedTrimmed. reflexivity.
Qed.

(** C7 as stated fails for the keyword "team " typed with a trailing space:
    the title does not contain the keyword, and the filter retains the
    event. *)
Lemma filter_ignores_spaces_around_the_keyword :
  CustomDialogManager.updateFilteredEvents
    (fun _ => None) (CustomDialogManager.mkInputs "team " "" "") [teamEvent]
  = [teamEvent]
  /\ Criteria.retained
       (fun _ => None) (CustomDialogManager.mkInputs "team " "" "") teamEvent
     = false
  /\ Criteria.containsIgnoringCase "Team" "team " = false.
Proof. repeat split. Qed.

(** C9: filtering the filtered events again with the same inputs changes
    nothing. *)
Theorem filter_is_idempotent
  (newDate : string -> CustomDialogManager.Date)
  (inputs : CustomDialogManager.Inputs)
  (allEvents : list CustomDialogManager.Event.t) :
  CustomDialogManager.updateFilteredEvents newDate inputs
    (CustomDialogManager.updateFilteredEvents newDate inputs allEvents)
  = CustomDialogManager.updateFilteredEvents newDate inputs allEvents.
Proof.
  unfold CustomDialogManager.updateFilteredEvents. apply filter_idempotent.
Qed.

(** * Properties of the content script and of the message handler *)

(** ** Splitting, joining and matching text *)

Section TextFacts.

Lemma append_assoc_string (a b c : string) :
  ((a ++ b) ++ c)%string = (a ++ (b ++ c))%string.
Proof. induction a as [|x a IH]; simpl; [reflexivity|now rewrite IH]. Qed.

Lemma append_empty_r (a : string) : (a ++ "")%string = a.
Proof. induction a as [|x a IH]; simpl; [reflexivity|now rewrite IH]. Qed.

(** A needle of a needle of the haystack is a needle of the haystack. *)
Lemma includes_trans (a b c : string) :
  Js.includes a b = true -> Js.includes b c = true -> Js.includes a c = true.
Proof.
  rewrite !includes_spec.
  intros (p & q & ->) (p' & q' & ->).
  exists (p' ++ p)%string, (q ++ q')%string.
  now rewrite !append_assoc_string.
Qed.

Lemma split_nonempty sep s : JsText.split sep s <> [].
Proof.
  induction s as [|c s IH]; simpl; [discriminate|].
  destruct (Ascii.eqb c sep); [discriminate|].
  destruct (JsText.split sep s); [congruence|discriminate].
Qed.

(** Joining the pieces with the separator gives the string back. *)
Lemma join_split sep s :
  JsText.join (String sep "") (JsText.split sep s) = s.
Proof.
  induction s as [|c s IH]; [reflexivity|].
  cbn [JsText.split]. destruct (Ascii.eqb_spec c sep) as [->|Hne].
  - pose proof (split_nonempty sep s) as Hs.
    cbn [JsText.join]. destruct (JsText.split sep s) as [|piece pieces];
      [congruence|]. simpl. simpl in IH. now rewrite IH.
  - pose proof (split_nonempty sep s) as Hs.
    destruct (JsText.split sep s) as [|piece pieces]; [congruence|].
    destruct pieces as [|piece' pieces]; simpl in *; now rewrite IH.
Qed.

(** No piece holds the separator. *)
Lemma split_pieces sep s :
  Forall (fun piece => JsText.allChars (fun c => negb (Ascii.eqb c sep)) piece = true)
         (JsText.split sep s).
Proof.
  induction s as [|c s IH]; cbn [JsText.split]; [now repeat constructor|].
  destruct (Ascii.eqb c sep) eqn:Hc; [now constructor|].
  pose proof (split_nonempty sep s) as Hs.
  destruct (JsText.split sep s) as [|piece pieces]; [congruence|].
  inversion IH as [|? ? Hpiece Hpieces]; subst. constructor; [|exact Hpieces].
  simpl. now rewrite Hc, Hpiece.
Qed.

(** The first piece and the rest of the string, when there is a
    separator. *)
Lemma split_first sep s first others :
  JsText.split sep s = first :: others -> others <> [] ->
  s = (first ++ String sep (JsText.join (String sep "") others))%string.
Proof.
  intros Hsplit Hothers. rewrite <- (join_split sep s) at 1. rewrite Hsplit.
  destruct others as [|other others]; [congruence|reflexivity].
Qed.

Lemma afterDigits_spec n : forall s rest,
  JsText.afterDigits n s = Some rest <->
  exists digits,
    s = (digits ++ rest)%string /\ String.length digits = n
    /\ JsText.allChars JsText.isDigit digits = true.
Proof.
  induction n as [|n IH]; intros s rest; simpl.
  - split.
    + intros [= ->]. now exists "".
    + intros (digits & -> & Hlen & _). destruct digits; [reflexivity|discriminate].
  - destruct s as [|c s].
    + split; [discriminate|]. intros (digits & H & Hlen & _).
      destruct digits; discriminate.
    + destruct (JsText.isDigit c) eqn:Hc.
      * rewrite IH. split.
        -- intros (digits & -> & Hlen & Hall). exists (String c digits).
           simpl. now rewrite Hlen, Hc, Hall.
        -- intros (digits & H & Hlen & Hall). destruct digits as [|d digits];
             [discriminate|]. simpl in *. injection H as -> ->.
           apply andb_true_iff in Hall. exists digits.
           repeat split; [lia|tauto].
      * split; [discriminate|]. intros (digits & H & Hlen & Hall).
        destruct digits as [|d digits]; [discriminate|]. simpl in *.
        injection H as -> ->. rewrite Hc in Hall. discriminate.
Qed.

(** The regular expression [/^\d{8}_(.+)$/] matches a string exactly when
    it is eight digits, an underscore and a non-empty group without line
    terminator. *)
Lemma matchDatedId_spec s group :
  JsText.matchDatedId s = Some group <->
  exists digits,
    s = (digits ++ String "_" group)%string
    /\ String.length digits = 8
    /\ JsText.allChars JsText.isDigit digits = true
    /\ group <> ""
    /\ JsText.allChars (fun c => negb (JsText.isLineTerminator c)) group = true.
Proof.
  unfold JsText.matchDatedId. split.
  - destruct (JsText.afterDigits 8 s) as [[|c rest]|] eqn:Hd; try discriminate.
    destruct (Ascii.eqb_spec c "_") as [->|]; [|discriminate].
    destruct (Js.truthy rest) eqn:Ht; [|discriminate].
    destruct (JsText.allChars _ rest) eqn:Hall; [|discriminate].
    intros [= <-]. apply afterDigits_spec in Hd.
    destruct Hd as (digits & -> & Hlen & Hdig). exists digits.
    repeat split; auto. intros ->. discriminate.
  - intros (digits & -> & Hlen & Hdig & Hne & Hall).
    assert (Hd : JsText.afterDigits 8 (digits ++ String "_" group)
                 = Some (String "_" group))
      by (apply afterDigits_spec; now exists digits).
    rewrite Hd. simpl Ascii.eqb. cbn [andb]. rewrite Hall.
    destruct group; [congruence|reflexivity].
Qed.

End TextFacts.

(** ** The event cache *)

Section MapFacts.

Variable V : Type.

Lemma get_In key (m : JsMap.t V) value :
  JsMap.get key m = Some value -> In (key, value) m.
Proof.
  induction m as [|[k v] m IH]; simpl; [discriminate|].
  destruct (String.eqb_spec k key) as [->|Hne].
  - intros [= ->]. now left.
  - intros H. right. now apply IH.
Qed.

Lemma get_None key (m : JsMap.t V) :
  JsMap.get key m = None <-> ~ In key (JsMap.keys m).
Proof.
  induction m as [|[k v] m IH]; simpl; [tauto|].
  destruct (String.eqb_spec k key) as [->|Hne].
  - split; [discriminate|]. intros H. exfalso. apply H. now left.
  - rewrite IH. split; [intros H [Heq|Hin]; [congruence|tauto]|tauto].
Qed.

Lemma In_get key (m : JsMap.t V) value :
  NoDup (JsMap.keys m) -> In (key, value) m -> JsMap.get key m = Some value.
Proof.
  induction m as [|[k v] m IH]; simpl; [tauto|].
  intros Hnodup [[= -> ->]|Hin]; inversion Hnodup as [|? ? Hfresh Hrest]; subst.
  - now rewrite String.eqb_refl.
  - destruct (String.eqb_spec k key) as [->|Hne]; [|now apply IH].
    exfalso. apply Hfresh. apply in_map_iff. now exists (key, value).
Qed.

Lemma get_set_same key value (m : JsMap.t V) :
  JsMap.get key (JsMap.set key value m) = Some value.
Proof.
  induction m as [|[k v] m IH]; simpl.
  - now rewrite String.eqb_refl.
  - destruct (String.eqb_spec k key) as [->|Hne]; simpl.
    + now rewrite String.eqb_refl.
    + destruct (String.eqb_spec k key); [congruence|exact IH].
Qed.

Lemma get_set_other key key' value (m : JsMap.t V) :
  key <> key' -> JsMap.get key' (JsMap.set key value m) = JsMap.get key' m.
Proof.
  intros Hne. induction m as [|[k v] m IH]; simpl.
  - destruct (String.eqb_spec key key'); [congruence|reflexivity].
  - destruct (String.eqb_spec k key) as [->|Hk]; simpl.
    + destruct (String.eqb_spec key key'); [congruence|reflexivity].
    + destruct (String.eqb_spec k key'); [reflexivity|exact IH].
Qed.

Lemma set_keys key value (m : JsMap.t V) :
  JsMap.keys (JsMap.set key value m)
  = if JsMap.has key m then JsMap.keys m else JsMap.keys m ++ [key].
Proof.
  unfold JsMap.has, JsMap.keys. induction m as [|[k v] m IH]; simpl;
    [reflexivity|].
  destruct (String.eqb_spec k key) as [->|Hne]; simpl; [reflexivity|].
  rewrite IH. now destruct (JsMap.get key m).
Qed.

Lemma set_NoDup key value (m : JsMap.t V) :
  NoDup (JsMap.keys m) -> NoDup (JsMap.keys (JsMap.set key value m)).
Proof.
  intros Hnodup. rewrite set_keys. unfold JsMap.has.
  destruct (JsMap.get key m) eqn:Hget; [exact Hnodup|].
  apply get_None in Hget. apply NoDup_app; auto.
  - constructor; [tauto|constructor].
  - intros k Hk [<-|[]]. tauto.
Qed.

Lemma set_Forall (P : string * V -> Prop) key value (m : JsMap.t V) :
  P (key, value) -> Forall P m -> Forall P (JsMap.set key value m).
Proof.
  intros Hnew. induction 1 as [|[k v] m Hkv Hm IH]; simpl.
  - now repeat constructor.
  - destruct (String.eqb k key); constructor; auto.
Qed.


Lemma delete_NoDup key (m : JsMap.t V) :
  NoDup (JsMap.keys m) -> NoDup (JsMap.keys (JsMap.delete key m)).
Proof.
  unfold JsMap.delete, JsMap.keys. induction m as [|[k v] m IH]; simpl;
    [auto|].
  intros Hnodup. inversion Hnodup as [|? ? Hfresh Hrest]; subst.
  destruct (String.eqb k key); simpl; [now apply IH|].
  constructor; [|now apply IH].
  intros Hin. apply Hfresh. apply in_map_iff in Hin.
  destruct Hin as (entry & Hfst & Hin). apply filter_In in Hin.
  apply in_map_iff. exists entry. tauto.
Qed.

Lemma delete_Forall (P : string * V -> Prop) key (m : JsMap.t V) :
  Forall P m -> Forall P (JsMap.delete key m).
Proof.
  unfold JsMap.delete. rewrite !Forall_forall. intros H entry Hin.
  apply filter_In in Hin. now apply H.
Qed.

End MapFacts.

(** ** Parsing the events of the page *)

Section PageFacts.

Import CalendarExtension.

Lemma canDelete_holiday calendarId :
  canDeleteFromCalendar calendarId = negb (Js.includes "#holiday@" calendarId).
Proof.
  unfold canDeleteFromCalendar.
  destruct (Js.includes "#holiday@" calendarId) eqn:Hholiday;
    [now destruct (existsb _ _)|].
  destruct (existsb _ readOnlyCalendars) eqn:Hlisted; [|reflexivity].
  apply existsb_exists in Hlisted. destruct Hlisted as (readOnly & Hin & Hinc).
  assert (Js.includes "#holiday@" readOnly = true)
    by (repeat (destruct Hin as [<-|Hin]; [reflexivity|]); destruct Hin).
  rewrite (includes_trans _ _ _ H Hinc) in Hholiday. discriminate.
Qed.

Lemma split_one sep s :
  (List.length (JsText.split sep s) <? 2)%nat
  = JsText.allChars (fun c => negb (Ascii.eqb c sep)) s.
Proof.
  induction s as [|c s IH]; [reflexivity|].
  cbn [JsText.split JsText.allChars].
  pose proof (split_nonempty sep s) as Hs.
  destruct (Ascii.eqb c sep); cbn [negb andb].
  - destruct (JsText.split sep s); [congruence|reflexivity].
  - destruct (JsText.split sep s) as [|piece pieces]; [congruence|exact IH].
Qed.

Variable atob : string -> option string.

Lemma parseEventId_decoded id decoded :
  Js.truthy id = true -> atob id = Some decoded ->
  parseEventId atob (Some id)
  = if spaceless decoded then unparsed
    else
      let first := hd EmptyString (JsText.split " " decoded) in
      let rest := JsText.join " " (tl (JsText.split " " decoded)) in
      {| eventId := Some match JsText.matchDatedId first with
                         | Some group => group
                         | None => first
                         end;
         calendarId := Some rest;
         canDelete := canDeleteFromCalendar rest |}.
Proof.
  intros Hid Hatob. unfold parseEventId, spaceless. cbn [JsText.truthy].
  rewrite Hid, Hatob. cbn [negb]. rewrite <- split_one.
  destruct (List.length (JsText.split " " decoded)) as [|[|n]]; reflexivity.
Qed.

Lemma parseEventId_reliable domEventId :
  canDelete (parseEventId atob domEventId) = true ->
  exists actualEventId calendarId,
    eventId (parseEventId atob domEventId) = Some actualEventId
    /\ CalendarExtension.calendarId (parseEventId atob domEventId) = Some calendarId
    /\ Js.includes "#holiday@" calendarId = false.
Proof.
  unfold parseEventId.
  destruct (JsText.truthy domEventId); cbn [negb]; [|discriminate].
  destruct domEventId as [id|]; [|discriminate].
  destruct (atob id) as [decoded|]; [|discriminate].
  destruct (2 <=? _)%nat; [|discriminate]. cbn [canDelete eventId calendarId].
  rewrite canDelete_holiday. intros H. eexists _, _.
  repeat split. now destruct (Js.includes _ _).
Qed.

Lemma or_known (a b : option string) :
  CustomDialogManager.knownString (JsText.or (JsText.or a b) None)
  = JsText.or (JsText.or a b) None.
Proof.
  unfold JsText.or, JsText.truthy, CustomDialogManager.knownString.
  destruct a as [[|c a]|], b as [[|d b]|]; reflexivity.
Qed.

Lemma extractEventData_reliable element :
  reliable (extractEventData atob element).
Proof.
  unfold reliable, extractEventData. cbn [Event.canDelete Event.actualEventId Event.calendarId].
  apply parseEventId_reliable.
Qed.

Lemma eventOfApi_reliable event : reliable (eventOfApi event).
Proof.
  unfold reliable, eventOfApi.
  cbn [Event.canDelete Event.actualEventId Event.calendarId].
  rewrite canDelete_holiday. intros H. eexists _, _.
  repeat split. now destruct (Js.includes _ _).
Qed.

End PageFacts.

(** ** The content script and its cache *)

Section ContentFacts.

Import CalendarExtension.

Lemma sound_empty : sound JsMap.empty.
Proof. split; constructor. Qed.

Lemma sound_set (event : Event.t) cache :
  reliable event -> sound cache -> sound (JsMap.set (Event.id event) event cache).
Proof.
  intros Hrel [Hnodup Hall]. split; [now apply set_NoDup|].
  now apply set_Forall.
Qed.

Lemma sound_delete key cache : sound cache -> sound (JsMap.delete key cache).
Proof.
  intros [Hnodup Hall]. split; [now apply delete_NoDup|now apply delete_Forall].
Qed.

Lemma sound_get cache key event :
  sound cache -> JsMap.get key cache = Some event ->
  Event.id event = key /\ reliable event.
Proof.
  intros [_ Hall] Hget. apply get_In in Hget.
  rewrite Forall_forall in Hall. apply (Hall _ Hget).
Qed.

Variable atob : string -> option string.
Variable noEvents : string.
Variable noResult : string.

Lemma sound_cacheAll events : forall cache,
  Forall reliable events -> sound cache -> sound (cacheAll events cache).
Proof.
  unfold cacheAll. induction events as [|event events IH]; intros cache Hrel Hs;
    [exact Hs|].
  inversion Hrel; subst. simpl. apply IH; [assumption|now apply sound_set].
Qed.

Lemma cacheEvents_app xs ys cache :
  cacheEvents atob (xs ++ ys) cache = cacheEvents atob ys (cacheEvents atob xs cache).
Proof. unfold cacheEvents. apply fold_left_app. Qed.

Lemma cacheEvents_get key : forall elements cache,
  JsMap.get key (cacheEvents atob elements cache)
  = match JsMap.get key cache with
    | Some event => Some event
    | None =>
        if Js.truthy key then
          option_map (extractEventData atob)
            (find (fun element => String.eqb (dataEventid element) key) elements)
        else None
    end.
Proof.
  induction elements as [|element elements IH]; intros cache.
  - simpl. destruct (JsMap.get key cache); [reflexivity|].
    now destruct (Js.truthy key).
  - unfold cacheEvents in *. cbn [fold_left find]. rewrite IH. clear IH.
    unfold JsMap.has.
    destruct (String.eqb_spec (dataEventid element) key) as [->|Hne].
    + destruct (JsMap.get key cache) eqn:Hget.
      * rewrite andb_false_r. now rewrite Hget.
      * cbn [negb]. rewrite andb_true_r.
        destruct (Js.truthy key); [|now rewrite Hget].
        now rewrite get_set_same.
    + destruct (Js.truthy (dataEventid element)
                && negb match JsMap.get (dataEventid element) cache with
                        | Some _ => true
                        | None => false
                        end); [|reflexivity].
      now rewrite get_set_other.
Qed.

Lemma sound_cacheEvents elements : forall cache,
  sound cache -> sound (cacheEvents atob elements cache).
Proof.
  unfold cacheEvents. induction elements as [|element elements IH];
    intros cache Hs; [exact Hs|].
  simpl. apply IH. destruct (_ && _); [|exact Hs].
  apply (sound_set (extractEventData atob element));
    [apply extractEventData_reliable|exact Hs].
Qed.

Lemma handleCalendarChanges_cacheEvents mutations : forall cache,
  handleCalendarChanges atob mutations cache
  = cacheEvents atob (addedEvents mutations) cache.
Proof.
  unfold handleCalendarChanges, addedEvents.
  induction mutations as [|nodes mutations IH]; intros cache; [reflexivity|].
  cbn [fold_left flat_map]. rewrite IH, cacheEvents_app. f_equal.
  clear IH. revert cache.
  induction nodes as [|node nodes IHn]; intros cache; [reflexivity|].
  cbn [fold_left flat_map]. rewrite IHn, cacheEvents_app. f_equal.
  destruct node as [[|event events]|]; reflexivity.
Qed.

Lemma sound_viewEventsNow page cache events cache' :
  sound cache -> viewEventsNow atob page cache = Some (events, cache') ->
  sound cache'.
Proof.
  unfold viewEventsNow. intros Hs.
  destruct (JsMap.values cache); [|now intros [= _ <-]].
  assert (Hall : Forall reliable (map (extractEventData atob) page)).
  { apply Forall_forall. intros event Hin. apply in_map_iff in Hin.
    destruct Hin as (element & <- & _). apply extractEventData_reliable. }
  destruct (map (extractEventData atob) page) as [|e es]; [discriminate|].
  intros H. injection H as _ <-.
  change (sound (cacheAll (e :: es) cache)). now apply sound_cacheAll.
Qed.

Lemma sound_viewEventsAnswered answer cache :
  sound cache -> sound (snd (viewEventsAnswered noEvents answer cache)).
Proof.
  intros Hs. unfold viewEventsAnswered.
  destruct answer as [[result|token| |apiEvents|error]|reason]; try exact Hs.
  cbn [snd]. apply sound_cacheAll; [|exact Hs].
  apply Forall_forall. intros event Hin. apply in_map_iff in Hin.
  destruct Hin as (apiEvent & <- & _). apply eventOfApi_reliable.
Qed.


Lemma sound_forget successful : forall cache,
  sound cache -> sound (forget successful cache).
Proof.
  unfold forget. induction successful as [|result successful IH];
    intros cache Hs; [exact Hs|].
  simpl. apply IH. now apply sound_delete.
Qed.

Lemma sound_conclude answer nonDeletableEvents cache :
  sound cache -> sound (fst (conclude noResult answer nonDeletableEvents cache)).
Proof.
  intros Hs. unfold conclude.
  destruct answer as [[result|token| |apiEvents|error]|reason]; try exact Hs.
  cbn [fst]. now apply sound_forget.
Qed.

Lemma sort_sorted cache lists domEventId :
  sort cache lists domEventId
  = (fst lists ++ fst (sorted cache domEventId),
     snd lists ++ snd (sorted cache domEventId)).
Proof.
  unfold sorted, sort. destruct lists as [toDelete nonDeletable].
  destruct (JsMap.get domEventId cache) as [cached|];
    [|cbn [fst snd]; now rewrite !app_nil_r].
  destruct (Event.canDelete cached), (Event.actualEventId cached) as [a|],
    (Event.calendarId cached) as [c|];
    try (cbn [fst snd app]; now rewrite ?app_nil_r).
  destruct (Js.truthy a && Js.truthy c); cbn [fst snd app];
    now rewrite ?app_nil_r.
Qed.

Lemma sortAll_sorted cache eventDomIds :
  sortAll cache eventDomIds
  = (flat_map (fun id => fst (sorted cache id)) eventDomIds,
     flat_map (fun id => snd (sorted cache id)) eventDomIds).
Proof.
  unfold sortAll.
  assert (H : forall ids lists,
             fold_left (sort cache) ids lists
             = (fst lists ++ flat_map (fun id => fst (sorted cache id)) ids,
                snd lists ++ flat_map (fun id => snd (sorted cache id)) ids)).
  { induction ids as [|id ids IH]; intros [a b].
    - simpl. now rewrite !app_nil_r.
    - cbn [fold_left flat_map]. rewrite IH, sort_sorted. cbn [fst snd].
      now rewrite <- !app_assoc. }
  apply H.
Qed.

(** What [sorted] yields, case by case. *)
Lemma sorted_cases cache domEventId :
  (JsMap.get domEventId cache = None /\ sorted cache domEventId = ([], []))
  \/ (exists cached actualEventId calendarId,
        JsMap.get domEventId cache = Some cached
        /\ Event.canDelete cached = true
        /\ Event.actualEventId cached = Some actualEventId
        /\ Event.calendarId cached = Some calendarId
        /\ actualEventId <> "" /\ calendarId <> ""
        /\ sorted cache domEventId
           = ([MessageRouter.Event.mk domEventId actualEventId calendarId
                 (Event.title cached)], []))
  \/ (exists cached,
        JsMap.get domEventId cache = Some cached
        /\ (Event.canDelete cached = false
            \/ JsText.truthy (Event.actualEventId cached) = false
            \/ JsText.truthy (Event.calendarId cached) = false)
        /\ sorted cache domEventId
           = ([], [mkNonDeletable domEventId (Event.title cached)
                     (if Event.canDelete cached then "Missing event data"
                      else "Read-only calendar")])).
Proof.
  unfold sorted, sort.
  destruct (JsMap.get domEventId cache) as [cached|]; [|now left].
  right.
  destruct (Event.canDelete cached) eqn:Hcan.
  2: { right. exists cached. rewrite Hcan. split; [reflexivity|].
       split; [now left|].
       destruct (Event.actualEventId cached), (Event.calendarId cached);
         reflexivity. }
  destruct (Event.actualEventId cached) as [a|] eqn:Ha.
  2: { right. exists cached. rewrite Hcan, Ha. split; [reflexivity|].
       split; [right; now left|]. reflexivity. }
  destruct (Event.calendarId cached) as [c|] eqn:Hc.
  2: { right. exists cached. rewrite Hcan, Ha, Hc. split; [reflexivity|].
       split; [right; now right|]. reflexivity. }
  destruct (Js.truthy a) eqn:Hta; cbn [andb].
  - destruct (Js.truthy c) eqn:Htc.
    + left. exists cached, a, c.
      repeat split; auto; intros ->; discriminate.
    + right. exists cached. rewrite Hcan, Ha, Hc. split; [reflexivity|].
      split; [right; right; exact Htc|reflexivity].
  - right. exists cached. rewrite Hcan, Ha, Hc. split; [reflexivity|].
    split; [right; left; exact Hta|reflexivity].
Qed.

End ContentFacts.

(** ** The flow of a bulk deletion in the content script *)

Section ContentFlow.

Import CalendarExtension.

Lemma reachable_sound atob noEvents noResult cache :
  reachable atob noEvents noResult cache -> sound cache.
Proof.
  induction 1 as [|mutations cache _ IH|page cache events cache' _ IH Hnow
                  |answer cache _ IH|answer nonDeletable cache _ IH].
  - apply sound_empty.
  - rewrite handleCalendarChanges_cacheEvents. now apply sound_cacheEvents.
  - now apply (sound_viewEventsNow atob page cache events cache').
  - now apply sound_viewEventsAnswered.
  - now apply sound_conclude.
Qed.

Lemma sends_app xs ys : sends (xs ++ ys) = sends xs ++ sends ys.
Proof. unfold sends. apply flat_map_app. Qed.

Lemma sends_warning nonDeletableEvents : sends (warning nonDeletableEvents) = [].
Proof. now destruct nonDeletableEvents. Qed.

Lemma sends_conclude noResult answer nonDeletableEvents cache :
  sends (snd (conclude noResult answer nonDeletableEvents cache)) = [].
Proof.
  unfold conclude.
  destruct answer as [[result|token| |apiEvents|error]|reason]; try reflexivity.
  cbn [snd]. rewrite !sends_app. cbn.
  induction (MessageRouter.Results.successful result); [reflexivity|assumption].
Qed.

Lemma sorted_length cache domEventId :
  (List.length (fst (sorted cache domEventId))
   + List.length (snd (sorted cache domEventId))
   = if JsMap.has domEventId cache then 1 else 0)%nat.
Proof.
  unfold JsMap.has.
  destruct (sorted_cases cache domEventId)
    as [[-> ->]|[(cached & a & c & -> & _ & _ & _ & _ & _ & ->)
                |(cached & -> & _ & ->)]]; reflexivity.
Qed.

Lemma sortAll_asked cache eventDomIds event :
  In event (fst (sortAll cache eventDomIds)) ->
  In (MessageRouter.Event.domEventId event) eventDomIds.
Proof.
  rewrite sortAll_sorted. cbn [fst]. intros Hin.
  apply in_flat_map in Hin. destruct Hin as (id & Hid & Hin).
  destruct (sorted_cases cache id)
    as [[_ Hs]|[(cached & a & c & _ & _ & _ & _ & _ & _ & Hs)
               |(cached & _ & _ & Hs)]];
    rewrite Hs in Hin; cbn [fst] in Hin; try contradiction.
  now destruct Hin as [<-|[]].
Qed.

Lemma sortAll_reliable cache eventDomIds event :
  sound cache -> In event (fst (sortAll cache eventDomIds)) ->
  Js.includes "#holiday@" (MessageRouter.Event.calendarId event) = false
  /\ MessageRouter.Event.actualEventId event <> ""
  /\ MessageRouter.Event.calendarId event <> "".
Proof.
  intros Hsound. rewrite sortAll_sorted. cbn [fst]. intros Hin.
  apply in_flat_map in Hin. destruct Hin as (id & Hid & Hin).
  destruct (sorted_cases cache id)
    as [[_ Hs]|[(cached & a & c & Hget & Hcan & Ha & Hc & Hna & Hnc & Hs)
               |(cached & _ & _ & Hs)]];
    rewrite Hs in Hin; cbn [fst] in Hin; try contradiction.
  destruct Hin as [<-|[]]. cbn.
  destruct (sound_get cache id cached Hsound Hget) as [_ Hrel].
  destruct (Hrel Hcan) as (a' & c' & Ha' & Hc' & Hholiday).
  repeat split; auto. congruence.
Qed.

Lemma sends_performBulkDeletion noResult answer eventDomIds st :
  sends (snd (performBulkDeletion noResult answer eventDomIds st))
  = match fst (sortAll (eventCache st) eventDomIds) with
    | [] => []
    | events => [events]
    end.
Proof.
  unfold performBulkDeletion, announce.
  destruct (sortAll _ eventDomIds) as [[|e es] skipped]; cbn [fst snd].
  - now rewrite sends_app, sends_warning.
  - pose proof (sends_conclude noResult answer skipped (eventCache st)) as Hc.
    destruct (conclude _ _ _ _) as [cache shown].
    cbn [snd] in *. now rewrite !sends_app, sends_warning, Hc.
Qed.

Lemma sound_getCurrentViewEvents atob noEvents page answer cache :
  sound cache ->
  sound (snd (getCurrentViewEvents atob noEvents page answer cache)).
Proof.
  intros Hs. unfold getCurrentViewEvents.
  destruct (viewEventsNow atob page cache) as [[events cache']|] eqn:Hnow.
  - now apply (sound_viewEventsNow atob page cache events cache').
  - now apply sound_viewEventsAnswered.
Qed.

End ContentFlow.

(** ** The reply of the service worker *)

Section ReplyFacts.

Lemma successes_about events verdicts :
  Forall2 about events verdicts ->
  Forall (fun s => exists event, In event events /\ s = successOf event)
         (successes verdicts).
Proof.
  induction 1 as [|event v events verdicts Hv _ IH]; [constructor|].
  assert (Hweak : Forall (fun s => exists e, In e (event :: events) /\ s = successOf e)
                         (successes verdicts)).
  { revert IH. apply Forall_impl. intros s (e & Hin & Hs). exists e.
    split; [now right|exact Hs]. }
  destruct v as [s|f]; cbn [successes]; [|exact Hweak].
  constructor; [|exact Hweak]. exists event. split; [now left|exact Hv].
Qed.

Lemma failures_about events verdicts :
  Forall2 about events verdicts ->
  Forall (fun f => exists event, In event events /\ about event (inr f))
         (failures verdicts).
Proof.
  induction 1 as [|event v events verdicts Hv _ IH]; [constructor|].
  assert (Hweak : Forall (fun f => exists e, In e (event :: events) /\ about e (inr f))
                         (failures verdicts)).
  { revert IH. apply Forall_impl. intros f (e & Hin & Hf). exists e.
    split; [now right|exact Hf]. }
  destruct v as [s|f]; cbn [failures]; [exact Hweak|].
  constructor; [|exact Hweak]. exists event. split; [now left|exact Hv].
Qed.

(** The reply to a request with events: a report about these events. *)
Lemma handleMessage_report world events :
  exists result,
    ServiceWorker.handleMessage world
      (ServiceWorker.BULK_DELETE_EVENTS (Some events))
    = Some (ReplyResult result)
    /\ (List.length (MessageRouter.Results.successful result)
        + List.length (MessageRouter.Results.failed result)
        = List.length events)%nat
    /\ Forall (fun s => exists event, In event events /\ s = successOf event)
              (MessageRouter.Results.successful result)
    /\ Forall (fun f => exists event, In event events /\ about event (inr f))
              (MessageRouter.Results.failed result).
Proof.
  cbn [ServiceWorker.handleMessage].
  destruct (bulkDeletion_spec (ServiceWorker.deletion world) MessageRouter.batchSize)
    with (events := events) as (st & parts & Hrun & Hok & Hko & _);
    [unfold MessageRouter.batchSize; lia|].
  unfold MessageRouter.performBulkDeletion. rewrite Hrun.
  exists (MessageRouter.results st). split; [reflexivity|].
  rewrite Hok, Hko.
  pose proof (verdicts_about (ServiceWorker.deletion world)
                MessageRouter.batchSize events 0) as Habout.
  repeat split.
  - rewrite successes_failures_length, length_map. apply indexed_length.
  - now apply successes_about.
  - now apply failures_about.
Qed.

End ReplyFacts.

(** ** The sliding window of the limiter *)

Section WindowFacts.

Import RateLimiter.

Lemma recent_recent window now later times :
  (now <= later)%Z ->
  recent window later (recent window now times) = recent window later times.
Proof.
  intros Hle. unfold recent. induction times as [|t times IH]; [reflexivity|].
  simpl. destruct (Z.ltb_spec (now - t) window) as [Hn|Hn]; simpl.
  - now rewrite IH.
  - rewrite IH. destruct (Z.ltb_spec (later - t) window); [lia|reflexivity].
Qed.

Lemma recent_app window now xs ys :
  recent window now (xs ++ ys) = recent window now xs ++ recent window now ys.
Proof. apply filter_app. Qed.

Lemma paced_snoc limit window times now :
  paced limit window times ->
  (Z.of_nat (List.length (recent window now times)) < limit)%Z ->
  paced limit window (times ++ [now]).
Proof.
  intros Hpaced Hnow i time Hnth.
  destruct (Nat.lt_ge_cases i (List.length times)) as [Hlt|Hge].
  - rewrite nth_error_app1 in Hnth by exact Hlt.
    rewrite firstn_app. replace (i - List.length times)%nat with 0%nat by lia.
    cbn [firstn]. rewrite app_nil_r. now apply Hpaced.
  - rewrite nth_error_app2 in Hnth by exact Hge.
    destruct (i - List.length times)%nat as [|d] eqn:Hd;
      [|destruct d; discriminate].
    injection Hnth as <-. replace i with (List.length times) by lia.
    rewrite firstn_app, Nat.sub_diag, firstn_all. cbn [firstn].
    now rewrite app_nil_r.
Qed.

Lemma grants_paced nows : forall rl last done,
  (0 < windowMs rl)%Z ->
  StronglySorted Z.le (last :: nows) ->
  requests rl = recent (windowMs rl) last done ->
  paced (maxRequests rl) (windowMs rl) done ->
  paced (maxRequests rl) (windowMs rl) (done ++ grants nows rl).
Proof.
  induction nows as [|now later IH]; intros rl last done Hwindow Hsorted Hreq Hpaced.
  - simpl. now rewrite app_nil_r.
  - apply StronglySorted_inv in Hsorted. destruct Hsorted as [Hsorted Hlast].
    assert (Hle : (last <= now)%Z) by (inversion Hlast; assumption).
    assert (Hpruned : requests (prune now rl) = recent (windowMs rl) now done).
    { simpl. rewrite Hreq. now apply recent_recent. }
    cbn [grants].
    destruct (pass_cases now rl) as [[Hpass Hfull]|[Hpass Hfree]]; rewrite Hpass.
    + apply (IH (prune now rl) now done); auto.
    + replace (done ++ now :: grants later _)
        with ((done ++ [now]) ++ grants later
                (mk (maxRequests rl) (windowMs rl)
                    (requests (prune now rl) ++ [now])))
        by now rewrite <- app_assoc.
      apply (IH (mk (maxRequests rl) (windowMs rl)
                    (requests (prune now rl) ++ [now])) now (done ++ [now]));
        cbn [windowMs maxRequests requests]; auto.
      * rewrite Hpruned, recent_app. f_equal. unfold recent. simpl.
        rewrite Z.sub_diag. destruct (Z.ltb_spec 0 (windowMs rl)); [reflexivity|lia].
      * apply paced_snoc; [exact Hpaced|]. now rewrite <- Hpruned.
Qed.

End WindowFacts.

(** ** The positions of the trace *)

Section MoreRunFacts.

Import MessageRouter.

Lemma dispatches_app xs ys : dispatches (xs ++ ys) = dispatches xs ++ dispatches ys.
Proof. unfold dispatches. apply flat_map_app. Qed.

Lemma records_app xs ys : records (xs ++ ys) = records xs ++ records ys.
Proof. unfold records. apply flat_map_app. Qed.

Lemma dispatches_map ks :
  dispatches (map Dispatched ks) = ks /\ dispatches (map Recorded ks) = []
  /\ records (map Dispatched ks) = [] /\ records (map Recorded ks) = ks.
Proof.
  induction ks as [|k ks (H1 & H2 & H3 & H4)]; [now repeat split|].
  unfold dispatches, records in *. simpl. now rewrite H1, H2, H3, H4.
Qed.

Lemma chunkTrace_positions {A : Type} (chunk : list (nat * A)) :
  dispatches (chunkTrace chunk) = map fst chunk
  /\ records (chunkTrace chunk) = map fst chunk.
Proof.
  unfold chunkTrace. rewrite dispatches_app, records_app.
  destruct (dispatches_map (map fst chunk)) as (-> & -> & -> & ->).
  now rewrite app_nil_r.
Qed.

Lemma trace_positions {A : Type} (parts : list (list (nat * A))) :
  dispatches (flat_map chunkTrace parts) = map fst (List.concat parts)
  /\ records (flat_map chunkTrace parts) = map fst (List.concat parts).
Proof.
  induction parts as [|part parts [IHd IHr]]; [now split|].
  cbn [flat_map List.concat]. rewrite dispatches_app, records_app, map_app.
  destruct (chunkTrace_positions part) as [-> ->]. now rewrite IHd, IHr.
Qed.

End MoreRunFacts.

(** ** The properties *)

(** X1: [canDeleteFromCalendar] refuses exactly the calendars whose
    identifier contains "#holiday@"; the list of read-only calendars adds
    nothing to that test. *)
Theorem only_holiday_calendars_are_read_only (calendarId : string) :
  CalendarExtension.canDeleteFromCalendar calendarId = false
  <-> Js.includes "#holiday@" calendarId = true.
Proof.
  rewrite canDelete_holiday. now destruct (Js.includes _ _).
Qed.

(** X2: [parseEventId] gives up, with no identifiers and [canDelete] false,
    exactly when the attribute is missing or empty, or [atob] throws, or
    the decoded text holds no space. *)
Theorem parseEventId_gives_up_iff
  (atob : string -> option string) (domEventId : option string) :
  CalendarExtension.parseEventId atob domEventId = CalendarExtension.unparsed
  <-> JsText.truthy domEventId = false
      \/ exists id, domEventId = Some id
           /\ (atob id = None
               \/ exists decoded, atob id = Some decoded
                    /\ spaceless decoded = true).
Proof.
  destruct domEventId as [id|]; [|split; [now left|reflexivity]].
  destruct (Js.truthy id) eqn:Hid.
  - destruct (atob id) as [decoded|] eqn:Hatob.
    + rewrite (parseEventId_decoded atob id decoded Hid Hatob).
      destruct (spaceless decoded) eqn:Hsp.
      * split; [|reflexivity]. intros _. right. exists id. split; [reflexivity|].
        right. now exists decoded.
      * split; [discriminate|].
        intros [H|(id' & [= <-] & [H|(decoded' & H & Hsp')])];
          [simpl in H|..]; congruence.
    + split.
      * intros _. right. exists id. auto.
      * intros _. unfold CalendarExtension.parseEventId. cbn [JsText.truthy].
        now rewrite Hid, Hatob.
  - split; [intros _; now left|]. intros _.
    unfold CalendarExtension.parseEventId. cbn [JsText.truthy]. now rewrite Hid.
Qed.

(** X3: when the decoded text holds a space, [parseEventId] cuts it at the
    first space: the calendar identifier is everything after it, spaces
    included, and the event identifier is the part before it, without its
    date prefix of eight digits and an underscore if it has one. *)
Theorem parseEventId_cuts_at_the_first_space
  (atob : string -> option string) (id decoded : string) :
  Js.truthy id = true -> atob id = Some decoded -> spaceless decoded = false ->
  exists first calendarId,
    decoded = (first ++ " " ++ calendarId)%string
    /\ spaceless first = true
    /\ CalendarExtension.calendarId (CalendarExtension.parseEventId atob (Some id))
       = Some calendarId
    /\ CalendarExtension.eventId (CalendarExtension.parseEventId atob (Some id))
       = Some match JsText.matchDatedId first with
              | Some group => group
              | None => first
              end
    /\ CalendarExtension.canDelete (CalendarExtension.parseEventId atob (Some id))
       = negb (Js.includes "#holiday@" calendarId).
Proof.
  intros Hid Hatob Hsp.
  rewrite (parseEventId_decoded atob id decoded Hid Hatob), Hsp.
  cbn [CalendarExtension.calendarId CalendarExtension.eventId
       CalendarExtension.canDelete].
  pose proof (split_pieces " " decoded) as Hpieces.
  pose proof (split_one " " decoded) as Hone. unfold spaceless in Hsp.
  rewrite Hsp in Hone.
  destruct (JsText.split " " decoded) as [|first others] eqn:Hsplit;
    [discriminate|].
  destruct others as [|other others]; [discriminate|].
  exists first, (JsText.join " " (other :: others)).
  repeat split.
  - now apply (split_first " " decoded first (other :: others)).
  - now inversion Hpieces.
  - apply canDelete_holiday.
Qed.

Lemma parseEventId_cuts_at_the_first_space_witness :
  exists first calendarId,
    "20250902_7gk2m1 dana@example.com" = (first ++ " " ++ calendarId)%string
    /\ spaceless first = true
    /\ CalendarExtension.calendarId
         (CalendarExtension.parseEventId pageAtob
            (Some "MjAyNTA5MDJfN2drMm0xIGRhbmFAZXhhbXBsZS5jb20="))
       = Some calendarId
    /\ CalendarExtension.eventId
         (CalendarExtension.parseEventId pageAtob
            (Some "MjAyNTA5MDJfN2drMm0xIGRhbmFAZXhhbXBsZS5jb20="))
       = Some match JsText.matchDatedId first with
              | Some group => group
              | None => first
              end
    /\ CalendarExtension.canDelete
         (CalendarExtension.parseEventId pageAtob
            (Some "MjAyNTA5MDJfN2drMm0xIGRhbmFAZXhhbXBsZS5jb20="))
       = negb (Js.includes "#holiday@" calendarId).
Proof.
  apply (parseEventId_cuts_at_the_first_space pageAtob
           "MjAyNTA5MDJfN2drMm0xIGRhbmFAZXhhbXBsZS5jb20="
           "20250902_7gk2m1 dana@example.com");
    reflexivity.
Defined.

(** X4: the event [extractEventData] builds has the attribute as its [id], a
    title that is not empty, start and end times that are [null] or not
    empty, and, if it can be deleted, both identifiers and a calendar that
    is no holiday calendar. *)
Theorem extractEventData_is_well_formed
  (atob : string -> option string) (element : CalendarExtension.Element) :
  CustomDialogManager.Event.id (CalendarExtension.extractEventData atob element)
  = CalendarExtension.dataEventid element
  /\ CustomDialogManager.Event.title (CalendarExtension.extractEventData atob element)
     <> ""
  /\ CustomDialogManager.knownString
       (CustomDialogManager.Event.startTime
          (CalendarExtension.extractEventData atob element))
     = CustomDialogManager.Event.startTime
         (CalendarExtension.extractEventData atob element)
  /\ CustomDialogManager.knownString
       (CustomDialogManager.Event.endTime
          (CalendarExtension.extractEventData atob element))
     = CustomDialogManager.Event.endTime
         (CalendarExtension.extractEventData atob element)
  /\ reliable (CalendarExtension.extractEventData atob element).
Proof.
  repeat split.
  - unfold CalendarExtension.extractEventData. cbn [CustomDialogManager.Event.title].
    destruct (Js.truthy (Js.trim _)) eqn:Ht; [|discriminate].
    intros Hempty. rewrite Hempty in Ht. discriminate.
  - apply or_known.
  - apply or_known.
  - apply extractEventData_reliable.
Qed.

(** X5: after the mutation observer has run, an identifier that was cached
    keeps its event; one that was not, and is not empty, has the event of
    the first added element that carries it; the empty identifier is never
    cached. *)
Theorem first_element_of_an_id_is_cached
  (atob : string -> option string)
  (mutations : list (list CalendarExtension.Node))
  (cache : CalendarExtension.Cache) (key : string) :
  JsMap.get key (CalendarExtension.handleCalendarChanges atob mutations cache)
  = match JsMap.get key cache with
    | Some event => Some event
    | None =>
        if Js.truthy key then
          option_map (CalendarExtension.extractEventData atob)
            (find (fun element =>
                     String.eqb (CalendarExtension.dataEventid element) key)
                  (addedEvents mutations))
        else None
    end.
Proof.
  rewrite handleCalendarChanges_cacheEvents. apply cacheEvents_get.
Qed.

(** X6: whatever cache the content script has reached and whatever
    identifiers it is asked to delete, every event it sorts into
    [eventsToDelete] was asked for, is not on a holiday calendar, and has an
    event identifier and a calendar identifier that are not empty. *)
Theorem no_holiday_event_is_sent
  (atob : string -> option string) (noEvents noResult : string)
  (cache : CalendarExtension.Cache) (eventDomIds : list string)
  (event : MessageRouter.Event.t) :
  reachable atob noEvents noResult cache ->
  In event (fst (CalendarExtension.sortAll cache eventDomIds)) ->
  In (MessageRouter.Event.domEventId event) eventDomIds
  /\ Js.includes "#holiday@" (MessageRouter.Event.calendarId event) = false
  /\ MessageRouter.Event.actualEventId event <> ""
  /\ MessageRouter.Event.calendarId event <> "".
Proof.
  intros Hreach Hin. split; [now apply (sortAll_asked cache)|].
  apply (sortAll_reliable cache eventDomIds); [|exact Hin].
  now apply (reachable_sound atob noEvents noResult).
Qed.

Lemma no_holiday_event_is_sent_witness :
  fst (CalendarExtension.sortAll pageCache pageIds) = [meeting]
  /\ In (MessageRouter.Event.domEventId meeting) pageIds
  /\ Js.includes "#holiday@" (MessageRouter.Event.calendarId meeting) = false
  /\ MessageRouter.Event.actualEventId meeting <> ""
  /\ MessageRouter.Event.calendarId meeting <> "".
Proof.
  split; [reflexivity|].
  apply (no_holiday_event_is_sent pageAtob "" "" pageCache pageIds meeting).
  - apply reach_mutations, reach_empty.
  - left. reflexivity.
Defined.

(** X7: the loop of [performBulkDeletion] puts every identifier found in
    the cache on exactly one of its two lists and drops the others; an
    event that cannot be deleted is reported as on a read-only calendar
    exactly when its cached [canDelete] is false. *)
Theorem every_cached_id_is_sorted_once
  (cache : CalendarExtension.Cache) (eventDomIds : list string) :
  (List.length (fst (CalendarExtension.sortAll cache eventDomIds))
   + List.length (snd (CalendarExtension.sortAll cache eventDomIds))
   = List.length (filter (fun id => JsMap.has id cache) eventDomIds))%nat
  /\ forall skipped,
       In skipped (snd (CalendarExtension.sortAll cache eventDomIds)) ->
       exists cached,
         JsMap.get (CalendarExtension.domEventId skipped) cache = Some cached
         /\ CalendarExtension.title skipped
            = CustomDialogManager.Event.title cached
         /\ CalendarExtension.reason skipped
            = if CustomDialogManager.Event.canDelete cached
              then "Missing event data" else "Read-only calendar".
Proof.
  rewrite sortAll_sorted. cbn [fst snd]. split.
  - induction eventDomIds as [|id ids IH]; [reflexivity|].
    cbn [flat_map filter]. rewrite !length_app.
    pose proof (sorted_length cache id) as Hid.
    destruct (JsMap.has id cache); cbn [List.length]; lia.
  - intros skipped Hin. apply in_flat_map in Hin.
    destruct Hin as (id & _ & Hin).
    destruct (sorted_cases cache id)
      as [[_ Hs]|[(cached & a & c & _ & _ & _ & _ & _ & _ & Hs)
                 |(cached & Hget & _ & Hs)]];
      rewrite Hs in Hin; cbn [snd] in Hin; try contradiction.
    destruct Hin as [<-|[]]. exists cached. now repeat split.
Qed.

(** X8: [performBulkDeletion] sends [BULK_DELETE_EVENTS] once, with all the
    events it sorted for deletion, and not at all when there is none,
    however [sendMessage] settles. *)
Theorem bulk_delete_is_sent_once_and_never_empty
  (noResult : string) (answer : Js.SettledResult Reply)
  (eventDomIds : list string) (st : CalendarExtension.State) :
  sends (snd (CalendarExtension.performBulkDeletion noResult answer eventDomIds st))
  = match fst (CalendarExtension.sortAll (CalendarExtension.eventCache st)
                 eventDomIds) with
    | [] => []
    | events => [events]
    end.
Proof. apply sends_performBulkDeletion. Qed.


(** X10: once the progress dialog is shown, it is closed exactly when
    [sendMessage] resolves; when [sendMessage] rejects, the error is shown
    and the progress dialog stays. *)
Theorem progress_dialog_is_closed_iff_answered
  (noResult : string) (answer : Js.SettledResult Reply)
  (eventDomIds : list string) (st : CalendarExtension.State) (count : nat) :
  In (CalendarExtension.ShowProgress count)
     (snd (CalendarExtension.performBulkDeletion noResult answer eventDomIds st)) ->
  In CalendarExtension.CloseProgress
     (snd (CalendarExtension.performBulkDeletion noResult answer eventDomIds st))
  <-> exists reply, answer = Js.fulfilled reply.
Proof.
  unfold CalendarExtension.performBulkDeletion, CalendarExtension.announce.
  destruct (CalendarExtension.sortAll _ eventDomIds) as [[|e es] skipped];
    cbn [fst snd].
  - intros Hin. apply in_app_or in Hin. destruct Hin as [Hin|[Hin|[]]];
      [destruct skipped; [destruct Hin|destruct Hin as [Hin|[]]]|];
      discriminate.
  - intros _. unfold CalendarExtension.conclude.
    assert (Hno : ~ In CalendarExtension.CloseProgress
                    (CalendarExtension.warning skipped
                       ++ [CalendarExtension.ShowProgress (List.length (e :: es));
                           CalendarExtension.SendBulkDelete (e :: es)])).
    { intros Hin. apply in_app_or in Hin.
      destruct Hin as [Hin|[Hin|[Hin|[]]]]; try discriminate.
      destruct skipped; [destruct Hin|destruct Hin as [Hin|[]]; discriminate]. }
    destruct answer as [[result|token| |apiEvents|error]|reason]; cbn [snd].
    1-5: split; [intros _; eexists; reflexivity
                |intros _; apply in_or_app; right; now left].
    split.
    + intros Hin. apply in_app_or in Hin. destruct Hin as [Hin|[Hin|[]]];
        [contradiction|discriminate].
    + intros [reply Hreply]. discriminate.
Qed.

Lemma progress_dialog_is_closed_iff_answered_witness :
  In CalendarExtension.CloseProgress
     (snd (CalendarExtension.performBulkDeletion ""
             (@Js.rejected Reply (Js.newError "Could not establish connection."))
             pageIds (CalendarExtension.mkState pageCache false)))
  <-> exists reply,
        @Js.rejected Reply (Js.newError "Could not establish connection.")
        = Js.fulfilled reply.
Proof.
  apply (progress_dialog_is_closed_iff_answered ""
           (@Js.rejected Reply (Js.newError "Could not establish connection."))
           pageIds (CalendarExtension.mkState pageCache false) 1).
  right. left. reflexivity.
Defined.

(** X11: a [BULK_DELETE_EVENTS] request that carries events is always
    answered with [success: true] and a report, also when every deletion
    failed; the report has one entry for each event of the request, and
    every entry is about an event of the request. *)
Theorem bulk_delete_request_is_always_answered
  (world : ServiceWorker.World) (events : list MessageRouter.Event.t) :
  exists result,
    ServiceWorker.handleMessage world
      (ServiceWorker.BULK_DELETE_EVENTS (Some events))
    = Some (ReplyResult result)
    /\ success (ReplyResult result) = true
    /\ (List.length (MessageRouter.Results.successful result)
        + List.length (MessageRouter.Results.failed result)
        = List.length events)%nat
    /\ Forall (fun s => exists event, In event events /\ s = successOf event)
              (MessageRouter.Results.successful result)
    /\ Forall (fun f => exists event, In event events /\ about event (inr f))
              (MessageRouter.Results.failed result).
Proof.
  destruct (handleMessage_report world events) as (result & H1 & H2 & H3 & H4).
  exists result. now repeat split.
Qed.



(** X13: from the click on the bulk button to the end, whatever the page, the
    answers and the user: nothing happens while a deletion is in progress;
    [BULK_DELETE_EVENTS] is sent at most once; and every event sent has the
    identifier of an event of the view that the filter of the dialog
    retained under the inputs the user confirmed, is not on a holiday
    calendar, and has both its identifiers. *)
Theorem only_retained_events_are_sent
  (atob : string -> option string) (noEvents noResult : string)
  (newDate : string -> CustomDialogManager.Date)
  (page : list CalendarExtension.Element)
  (eventsAnswer deletionAnswer : Js.SettledResult Reply)
  (choice : CalendarExtension.Choice)
  (st st' : CalendarExtension.State) (shown : list CalendarExtension.Ui) :
  sound (CalendarExtension.eventCache st) ->
  CalendarExtension.showBulkDeleteDialog atob noEvents noResult newDate page
    eventsAnswer deletionAnswer choice st = Some (st', shown) ->
  sound (CalendarExtension.eventCache st')
  /\ (CalendarExtension.isProcessing st = true -> st' = st /\ shown = [])
  /\ (List.length (sends shown) <= 1)%nat
  /\ forall events event,
       In events (sends shown) -> In event events ->
       (exists inputs viewEvents viewEvent,
          choice = CalendarExtension.Confirm inputs
          /\ fst (CalendarExtension.getCurrentViewEvents atob noEvents page
                    eventsAnswer (CalendarExtension.eventCache st))
             = Js.fulfilled viewEvents
          /\ In viewEvent viewEvents
          /\ CustomDialogManager.Event.id viewEvent
             = MessageRouter.Event.domEventId event
          /\ Criteria.retainedTrimmed newDate inputs viewEvent = true)
       /\ Js.includes "#holiday@" (MessageRouter.Event.calendarId event) = false
       /\ MessageRouter.Event.actualEventId event <> ""
       /\ MessageRouter.Event.calendarId event <> "".
Proof.
  intros Hsound. unfold CalendarExtension.showBulkDeleteDialog.
  destruct (CalendarExtension.isProcessing st) eqn:Hbusy.
  { intros [= <- <-]. split; [exact Hsound|]. split; [now split|].
    split; [simpl; lia|]. intros events event []. }
  pose proof (sound_getCurrentViewEvents atob noEvents page eventsAnswer _ Hsound)
    as Hsound'.
  destruct (CalendarExtension.getCurrentViewEvents atob noEvents page
              eventsAnswer (CalendarExtension.eventCache st))
    as [[viewEvents|reason] cache] eqn:Hview; cbn [snd] in Hsound'.
  2: { intros [= <- <-]. split; [exact Hsound'|]. split; [discriminate|].
       split; [simpl; lia|]. intros events event []. }
  destruct viewEvents as [|v vs].
  { intros [= <- <-]. split; [exact Hsound'|]. split; [discriminate|].
    split; [simpl; lia|]. intros events event []. }
  destruct choice as [|inputs]; cbn [CalendarExtension.dialog].
  { intros [= <- <-]. split; [exact Hsound'|]. split; [discriminate|].
    split; [simpl; lia|]. intros events event []. }
  destruct (CustomDialogManager.updateFilteredEvents newDate inputs (v :: vs))
    as [|f fs] eqn:Hfiltered; [discriminate|].
  intros Hsome. injection Hsome as Hsome.
  pose (ids := map CustomDialogManager.Event.id (f :: fs)).
  pose (start := {| CalendarExtension.eventCache := cache;
                    CalendarExtension.isProcessing := false |}).
  assert (Hrun : CalendarExtension.performBulkDeletion noResult deletionAnswer
                   ids start = (st', shown)) by exact Hsome.
  clear Hsome.
  pose proof (sends_performBulkDeletion noResult deletionAnswer ids start) as Hsends.
  rewrite Hrun in Hsends. cbn [snd CalendarExtension.eventCache start] in Hsends.
  assert (Hcache : sound (CalendarExtension.eventCache st')).
  { apply (f_equal fst) in Hrun. cbn [fst] in Hrun. rewrite <- Hrun.
    unfold CalendarExtension.performBulkDeletion.
    destruct (fst (CalendarExtension.sortAll _ ids)); [exact Hsound'|].
    pose proof (sound_conclude noResult deletionAnswer
                  (snd (CalendarExtension.sortAll
                          (CalendarExtension.eventCache start) ids))
                  (CalendarExtension.eventCache start) Hsound') as Hc.
    destruct (CalendarExtension.conclude _ _ _ _). exact Hc. }
  split; [exact Hcache|]. split; [discriminate|]. rewrite Hsends.
  split; [destruct (fst (CalendarExtension.sortAll cache ids)); simpl; lia|].
  intros events event Hevents Hevent.
  assert (Hin : In event (fst (CalendarExtension.sortAll cache ids))).
  { destruct (fst (CalendarExtension.sortAll cache ids)); [destruct Hevents|].
    destruct Hevents as [<-|[]]. exact Hevent. }
  split; [|now apply (sortAll_reliable cache ids)].
  apply sortAll_asked in Hin. apply in_map_iff in Hin.
  destruct Hin as (viewEvent & Hid & Hin).
  exists inputs, (v :: vs), viewEvent. rewrite <- Hfiltered in Hin.
  unfold CustomDialogManager.updateFilteredEvents in Hin.
  apply filter_In in Hin. rewrite keeps_retainedTrimmed in Hin.
  now repeat split.
Qed.

Lemma only_retained_events_are_sent_witness :
  exists st' shown,
    CalendarExtension.showBulkDeleteDialog pageAtob "" "" mayDates []
      (Js.fulfilled (ReplyEvents []))
      (Js.fulfilled (ReplyResult
         {| MessageRouter.Results.successful := [successOf meeting];
            MessageRouter.Results.failed := [] |}))
      (CalendarExtension.Confirm (CustomDialogManager.mkInputs " SYNC" "" ""))
      (CalendarExtension.mkState pageCache false)
    = Some (st', shown)
    /\ sends shown = [[meeting]]
    /\ sound (CalendarExtension.eventCache st').
Proof.
  eexists _, _. split; [reflexivity|]. split; [reflexivity|].
  eapply proj1, (only_retained_events_are_sent pageAtob "" "" mayDates []
            (Js.fulfilled (ReplyEvents []))
            (Js.fulfilled (ReplyResult
               {| MessageRouter.Results.successful := [successOf meeting];
                  MessageRouter.Results.failed := [] |}))
            (CalendarExtension.Confirm (CustomDialogManager.mkInputs " SYNC" "" ""))
            (CalendarExtension.mkState pageCache false)).
  - apply (reachable_sound pageAtob "" ""). apply reach_mutations, reach_empty.
  - reflexivity.
Defined.

(** X14: with no date and a keyword that is empty or all white space, the
    filter keeps exactly the events that can be deleted, in their order. *)
Theorem blank_inputs_keep_the_deletable_events
  (newDate : string -> CustomDialogManager.Date) (keyword : string)
  (allEvents : list CustomDialogManager.Event.t) :
  Js.trim keyword = "" ->
  CustomDialogManager.updateFilteredEvents newDate
    (CustomDialogManager.mkInputs keyword "" "") allEvents
  = filter CustomDialogManager.Event.canDelete allEvents.
Proof.
  intros Hblank. unfold CustomDialogManager.updateFilteredEvents.
  cbn [CustomDialogManager.titleFilter CustomDialogManager.dateFrom
       CustomDialogManager.dateTo].
  rewrite trim_toLowerCase, Hblank. apply filter_ext. intros event.
  unfold CustomDialogManager.keeps. cbn.
  destruct (CustomDialogManager.Event.canDelete event); [|reflexivity].
  now destruct (CustomDialogManager.knownString _).
Qed.

Lemma blank_inputs_keep_the_deletable_events_witness :
  CustomDialogManager.updateFilteredEvents mayDates
    (CustomDialogManager.mkInputs "   " "" "")
    [teamEvent; midnightEvent; morningEvent]
  = filter CustomDialogManager.Event.canDelete
      [teamEvent; midnightEvent; morningEvent].
Proof.
  apply (blank_inputs_keep_the_deletable_events mayDates "   ").
  reflexivity.
Defined.

(** X15: the two dates bound the start at their own instants: with the same
    valid date in both inputs, an event whose start is known and valid is
    retained only if it starts at exactly the instant of that date, so not
    later on that day. *)
Theorem same_day_keeps_only_its_first_instant
  (newDate : string -> CustomDialogManager.Date)
  (inputs : CustomDialogManager.Inputs)
  (allEvents : list CustomDialogManager.Event.t)
  (event : CustomDialogManager.Event.t) (day start : Z) (text : string) :
  CustomDialogManager.dateTo inputs = CustomDialogManager.dateFrom inputs ->
  Js.truthy (CustomDialogManager.dateFrom inputs) = true ->
  newDate (CustomDialogManager.dateFrom inputs) = Some day ->
  CustomDialogManager.knownString (CustomDialogManager.Event.startTime event)
  = Some text ->
  newDate text = Some start ->
  In event (CustomDialogManager.updateFilteredEvents newDate inputs allEvents) ->
  start = day.
Proof.
  intros Hsame Hgiven Hday Hknown Hstart Hin.
  unfold CustomDialogManager.updateFilteredEvents in Hin.
  apply filter_In in Hin. destruct Hin as [_ Hkeeps].
  unfold CustomDialogManager.keeps in Hkeeps.
  destruct (negb _); [discriminate|].
  destruct (_ && _); [discriminate|].
  rewrite Hknown, Hstart, Hsame in Hkeeps.
  unfold CustomDialogManager.dateOrNull in Hkeeps.
  rewrite Hgiven, Hday in Hkeeps.
  cbn [CustomDialogManager.dateLt CustomDialogManager.dateGt] in Hkeeps.
  destruct (Z.ltb_spec start day); [discriminate|].
  destruct (Z.ltb_spec day start); [discriminate|]. lia.
Qed.

Lemma same_day_keeps_only_its_first_instant_witness :
  CustomDialogManager.updateFilteredEvents mayDates
    (CustomDialogManager.mkInputs "" "2024-05-01" "2024-05-01")
    [teamEvent; midnightEvent; morningEvent]
  = [teamEvent; midnightEvent]
  /\ 1714521600000%Z = 1714521600000%Z.
Proof.
  split; [reflexivity|].
  apply (same_day_keeps_only_its_first_instant mayDates
           (CustomDialogManager.mkInputs "" "2024-05-01" "2024-05-01")
           [teamEvent; midnightEvent; morningEvent] midnightEvent
           1714521600000 1714521600000 "2024-05-01T00:00:00Z").
  - reflexivity.
  - reflexivity.
  - reflexivity.
  - reflexivity.
  - reflexivity.
  - right. now left.
Defined.

(** X16: the limiter keeps the rate: with a clock that never runs backwards
    and a positive window, every grant of any sequence of passes, of one
    caller or of several interleaved, finds fewer than [maxRequests] earlier
    grants less than [windowMs] before it. *)
Theorem limiter_keeps_the_rate
  (maxRequests windowMs : Z) (nows : list Z) (i : nat) (time : Z) :
  (0 < windowMs)%Z ->
  StronglySorted Z.le nows ->
  nth_error (grants nows (RateLimiter.create maxRequests windowMs)) i = Some time ->
  (Z.of_nat (List.length
               (recent windowMs time
                  (firstn i (grants nows (RateLimiter.create maxRequests windowMs)))))
   < maxRequests)%Z.
Proof.
  intros Hwindow Hsorted.
  destruct nows as [|now later]; [destruct i; discriminate|].
  assert (Hpaced : paced maxRequests windowMs
                     ([] ++ grants (now :: later)
                               (RateLimiter.create maxRequests windowMs))).
  { apply (grants_paced (now :: later)
             (RateLimiter.create maxRequests windowMs) now []).
    - exact Hwindow.
    - constructor; [exact Hsorted|]. constructor; [lia|].
      apply StronglySorted_inv in Hsorted. tauto.
    - reflexivity.
    - intros j t Hj. destruct j; discriminate. }
  apply Hpaced.
Qed.

Lemma limiter_keeps_the_rate_witness :
  grants [0; 1; 2; 500; 1000; 1000; 1001; 1002]%Z (RateLimiter.create 2 1000)
  = [0; 1; 1000; 1001]%Z
  /\ (Z.of_nat (List.length (recent 1000 1001 [0; 1; 1000]%Z)) < 2)%Z.
Proof.
  split; [reflexivity|].
  apply (limiter_keeps_the_rate 2 1000
           [0; 1; 2; 500; 1000; 1000; 1001; 1002]%Z 3 1001%Z).
  - lia.
  - repeat constructor; lia.
  - reflexivity.
Defined.

(** X17: a caller that [acquire] suspends waits a positive time, and at most
    [windowMs] when no recorded timestamp lies in the future. *)
Theorem suspended_caller_waits_within_the_window
  (now : Z) (rl suspended : RateLimiter.t) (waitTime : option Z) :
  (1 <= RateLimiter.maxRequests rl)%Z ->
  Forall (fun time => (time <= now)%Z) (RateLimiter.requests rl) ->
  RateLimiter.pass now rl = RateLimiter.Suspended waitTime suspended ->
  exists wait,
    waitTime = Some wait /\ (0 < wait <= RateLimiter.windowMs rl)%Z.
Proof.
  intros Hmax Hpast Hpass.
  destruct (pass_cases now rl) as [[Hp Hfull]|[Hp _]]; rewrite Hp in Hpass;
    [|discriminate].
  injection Hpass as <- _. clear Hp.
  cbn [RateLimiter.requests RateLimiter.prune] in *.
  destruct (Js.mathMin _) as [oldest|] eqn:Hmin.
  - apply mathMin_In in Hmin. apply filter_In in Hmin.
    destruct Hmin as [Hin Hrecent]. apply Z.ltb_lt in Hrecent.
    rewrite Forall_forall in Hpast. specialize (Hpast oldest Hin).
    eexists. split; [reflexivity|]. lia.
  - destruct (filter _ _); [simpl in Hfull; lia|discriminate].
Qed.

Lemma suspended_caller_waits_within_the_window_witness :
  exists wait,
    Some 998%Z = Some wait /\ (0 < wait <= 1000)%Z.
Proof.
  apply (suspended_caller_waits_within_the_window 2
           (RateLimiter.mk 2 1000 [0; 1]%Z) (RateLimiter.mk 2 1000 [0; 1]%Z)
           (Some 998%Z)).
  - simpl. lia.
  - repeat constructor; lia.
  - reflexivity.
Defined.


(** X19: when [deleteEvent] resolves, it resolves with the identifier it was
    given, after a request for that event answered [ok]; every request
    before it was answered [401], and its token was removed from the cache
    before the next token was asked for. *)
Theorem deleteEvent_resolves_after_its_retries
  (script : list Round) (calendarId eventId : string) :
  forall (value : string) (actions : list Action),
    MessageRouter.deleteEvent script calendarId eventId
    = (Some (Js.fulfilled value), actions) ->
    value = eventId
    /\ exists tokens token,
         actions = flat_map (retryActions calendarId eventId) tokens
                     ++ [GetValidToken; FetchDelete calendarId eventId token].
Proof.
  induction script as [|round later IH]; simpl; intros value actions H;
    [discriminate|].
  destruct (tokenResult round) as [token|msg]; [|discriminate].
  destruct (fetchResult round) as [response|msg]; [|discriminate].
  destruct (Response.ok response); simpl in H.
  - injection H as <- <-. split; [reflexivity|]. now exists [], token.
  - destruct (Response.status response =? 401)%Z; [|discriminate].
    destruct (MessageRouter.deleteEvent later calendarId eventId) as [result acts].
    injection H as -> <-.
    destruct (IH value acts eq_refl) as (Hvalue & tokens & last & ->).
    split; [exact Hvalue|]. now exists (token :: tokens), last.
Qed.

Lemma deleteEvent_resolves_after_its_retries_witness :
  "e1" = "e1"
  /\ exists tokens token,
       [GetValidToken; FetchDelete "primary" "e1" "stale";
        RemoveCachedAuthToken "stale";
        GetValidToken; FetchDelete "primary" "e1" "fresh"]
       = flat_map (retryActions "primary" "e1") tokens
           ++ [GetValidToken; FetchDelete "primary" "e1" token].
Proof.
  apply (deleteEvent_resolves_after_its_retries
           [unauthorized "stale"; answered "fresh" true 204 "No Content"]
           "primary" "e1" "e1"
           [GetValidToken; FetchDelete "primary" "e1" "stale";
            RemoveCachedAuthToken "stale";
            GetValidToken; FetchDelete "primary" "e1" "fresh"]).
  reflexivity.
Defined.

(** [deleteEvent_reason_classified_by_message] at a concrete input. *)
Lemma deleteEvent_reason_classified_by_message_witness :
  MessageRouter.isRetryableError (Js.newError "HTTP 503: Service Unavailable")
  = Js.includes "network" "HTTP 503: Service Unavailable"
    || Js.includes "timeout" "HTTP 503: Service Unavailable".
Proof.
  apply (deleteEvent_reason_classified_by_message
           [answered "token" false 503 "Service Unavailable"] "primary" "e1"
           (Js.newError "HTTP 503: Service Unavailable")
           [GetValidToken; FetchDelete "primary" "e1" "token"]).
  reflexivity.
Defined.

(** X22: the run attempts every event once and records every event once,
    both in input order: no deletion is tried again, whether it failed,
    was classified retryable, or its chunk threw. *)
Theorem every_event_is_attempted_once
  (env : MessageRouter.Env) (events : list MessageRouter.Event.t) :
  exists st,
    MessageRouter.performBulkDeletion env events = Some st
    /\ dispatches (MessageRouter.trace st) = seq 0 (List.length events)
    /\ records (MessageRouter.trace st) = seq 0 (List.length events).
Proof.
  destruct (bulkDeletion_spec env MessageRouter.batchSize) with (events := events)
    as (st & parts & Hrun & _ & _ & Htrace & Hparts);
    [unfold MessageRouter.batchSize; lia|].
  exists st. split; [exact Hrun|]. rewrite Htrace.
  destruct (trace_positions parts) as [-> ->].
  apply Chunks_concat in Hparts. rewrite Hparts, indexed_fst. now split.
Qed.

(** [run_keeps_ten_timestamps] at a concrete input. *)
Lemma run_keeps_ten_timestamps_witness :
  exists st,
    MessageRouter.performBulkDeletion secondChunkThrows manyEvents = Some st
    /\ (List.length (RateLimiter.requests (MessageRouter.rateLimiter st)) <= 10)%nat.
Proof.
  eexists. split; [reflexivity|].
  apply (run_keeps_ten_timestamps secondChunkThrows manyEvents).
  reflexivity.
Defined.
